(** * The gaodun extractor of hydrz/lux: a shallow embedding and its properties

    The Go package [extractors/gaodun] resolves a course URL into a list of
    media descriptors.  This file embeds the gateway client, the locator
    (regular expressions over URLs), the file-name sanitizer, the schema
    classifier, the two tree walkers and the resource resolver, and proves
    the properties of the specification about them.

    Conventions of the embedding:
    - a Go [string] is a sequence of bytes: record fields are [string],
      byte-level functions work on [bytes = list ascii];
    - a Go [int] is a [Z]; the one multiplication of the package wraps at 64
      bits;
    - a Go map is a [gmap]; the order in which [range] visits it is chosen
      by a [MapRange] oracle, any permutation of the entries;
    - a pair [(value, error)] is a [result]; a pointer that may be nil is an
      [option];
    - goroutines that append to a mutex-protected slice and are joined by a
      [WaitGroup] are a [Scheduler] oracle that interleaves their appends;
    - a gateway call is a function of its arguments: the remote catalogue
      does not change during one extraction;
    - logging ([slog]) has no influence on what is returned and is left
      out. *)

From Stdlib Require Import ZArith Ascii String DecimalString.
From stdpp Require Import gmap strings list fin_maps.

Set Warnings "-register-all,-clear-no-such-hyp".
Set Default Proof Using "Type".

Open Scope string_scope.
Open Scope list_scope.
Open Scope Z_scope.

(** ** Go strings as byte sequences *)

Module GoStrings.

Definition bytes := list ascii.

Definition of_string (s : string) : bytes := list_ascii_of_string s.
Definition to_string (b : bytes) : string := string_of_list_ascii b.

(** [len(s)], as a natural number. *)
Definition len (s : bytes) : nat := length s.

(** [strings.HasPrefix(s, prefix)]. *)
Fixpoint HasPrefix (s prefix : bytes) {struct prefix} : bool :=
  match prefix, s with
  | [], _ => true
  | _ :: _, [] => false
  | p :: prefix', c :: s' => Ascii.eqb p c && HasPrefix s' prefix'
  end.

(** [strings.Contains(s, substr)]. *)
Fixpoint Contains (s substr : bytes) : bool :=
  HasPrefix s substr ||
  match s with
  | [] => false
  | _ :: s' => Contains s' substr
  end.

(** The scan of [strings.ReplaceAll(s, old, new)] for a non-empty [old]:
    left to right, every non-overlapping occurrence of [old] is replaced
    by [new].  [skip] counts the bytes of the occurrence just replaced
    that are still to be passed over. *)
Fixpoint replace_from (old new : bytes) (skip : nat) (s : bytes) : bytes :=
  match s with
  | [] => []
  | c :: s' =>
      match skip with
      | S k => replace_from old new k s'
      | O =>
          if HasPrefix s old
          then new ++ replace_from old new (length old - 1) s'
          else c :: replace_from old new 0 s'
      end
  end.

(** [strings.ReplaceAll].  Every call of the package passes a one-byte
    [old]; the case of an empty [old] (Go then inserts [new] around every
    UTF-8 sequence) never arises and is left as the identity. *)
Definition ReplaceAll (s old new : bytes) : bytes :=
  match old with
  | [] => s
  | _ :: _ => replace_from old new 0 s
  end.

(** Membership of a byte in an ASCII cutset. *)
Definition in_cutset (cutset : bytes) (c : ascii) : bool :=
  existsb (Ascii.eqb c) cutset.

(** [strings.TrimLeft(s, cutset)] for an ASCII cutset. *)
Fixpoint TrimLeft (s cutset : bytes) : bytes :=
  match s with
  | [] => []
  | c :: s' => if in_cutset cutset c then TrimLeft s' cutset else s
  end.

(** [strings.TrimRight(s, cutset)] for an ASCII cutset: the longest
    prefix of [s] that does not end in a byte of the cutset. *)
Fixpoint TrimRight (s cutset : bytes) : bytes :=
  match s with
  | [] => []
  | c :: s' =>
      match TrimRight s' cutset with
      | [] => if in_cutset cutset c then [] else [c]
      | t => c :: t
      end
  end.

(** [strings.Trim(s, cutset)]: Go trims the right end, then the left. *)
Definition Trim (s cutset : bytes) : bytes :=
  TrimLeft (TrimRight s cutset) cutset.

(** The slice expression [s[:n]] for [n <= len(s)]. *)
Definition slice_to (s : bytes) (n : nat) : bytes := take n s.

(** [strconv.Itoa], also the [%d] verb of [fmt.Sprintf]. *)
Definition Itoa (n : Z) : string := NilEmpty.string_of_int (Z.to_int n).

End GoStrings.
Import GoStrings.

(** ** Regular expressions

    The fragment of RE2 syntax the package uses, matched the way Go's
    [regexp] does: leftmost match, alternatives in order, greedy
    repetition, with backtracking. *)

Module Regexp.

Inductive re : Type :=
| Lit (s : string)              (* literal text *)
| Plus (class : ascii → bool)   (* [class]+ , greedy *)
| Alt (r1 r2 : re)              (* r1|r2 , r1 preferred *)
| Seq (r1 r2 : re)              (* r1r2 *)
| Group (r : re).               (* (r) , capturing *)

(** [class]+ at the head of [s]: the longest run first, then shorter
    ones, each tried against the continuation [k]. *)
Fixpoint plus_greedy {X} (class : ascii → bool) (s : bytes)
    (k : bytes → option X) : option X :=
  match s with
  | [] => None
  | c :: s' =>
      if class c then
        match plus_greedy class s' k with
        | Some x => Some x
        | None => k s'
        end
      else None
  end.

(** Match [r] at the head of [s]; [caps] are the groups closed so far
    (the patterns of the package have no nested groups, so closing order
    is numbering order), [k] continues with the rest of the input. *)
Fixpoint run {X} (r : re) (s : bytes) (caps : list bytes)
    (k : bytes → list bytes → option X) : option X :=
  match r with
  | Lit l =>
      if HasPrefix s (of_string l)
      then k (drop (length (of_string l)) s) caps
      else None
  | Plus class => plus_greedy class s (λ rest, k rest caps)
  | Alt r1 r2 =>
      match run r1 s caps k with
      | Some x => Some x
      | None => run r2 s caps k
      end
  | Seq r1 r2 => run r1 s caps (λ rest caps', run r2 rest caps' k)
  | Group r1 =>
      run r1 s caps
        (λ rest caps', k rest (caps' ++ [take (length s - length rest) s]))
  end.

(** A match of [r] that starts exactly at the head of [s]: the matched
    text followed by the captured groups. *)
Definition match_here (r : re) (s : bytes) : option (list bytes) :=
  run r s [] (λ rest caps, Some (take (length s - length rest) s :: caps)).

(** The method [FindStringSubmatch] of a compiled pattern: the leftmost
    match; [[]] is Go's nil slice, returned when nothing matches. *)
Fixpoint FindStringSubmatch (r : re) (s : bytes) : list bytes :=
  match match_here r s with
  | Some m => m
  | None =>
      match s with
      | [] => []
      | _ :: s' => FindStringSubmatch r s'
      end
  end.

(** Character classes. *)
Definition is_digit (c : ascii) : bool :=
  (48 <=? nat_of_ascii c)%nat && (nat_of_ascii c <=? 57)%nat.
Definition is_lower (c : ascii) : bool :=
  (97 <=? nat_of_ascii c)%nat && (nat_of_ascii c <=? 122)%nat.
Definition is_upper (c : ascii) : bool :=
  (65 <=? nat_of_ascii c)%nat && (nat_of_ascii c <=? 90)%nat.
(** [[a-zA-Z0-9]] *)
Definition is_alnum (c : ascii) : bool :=
  is_lower c || is_upper c || is_digit c.
(** [[a-zA-Z0-9-]] *)
Definition is_alnum_dash (c : ascii) : bool :=
  is_alnum c || Ascii.eqb c "-"%char.

End Regexp.
Import Regexp.

(** ** Errors and results *)

Inductive error : Type :=
| errors_New (msg : string)                  (* errors.New *)
| Errorf_s (format : string) (arg : string)  (* fmt.Errorf with one %s *)
| Errorf_w (format : string) (cause : error) (* fmt.Errorf with one %w *)
| WithStack (cause : error)                  (* errors.WithStack *)
| External (msg : string).                   (* an error of a collaborator *)

Inductive result (A : Type) : Type :=
| Ok (a : A)
| Err (e : error).
Arguments Ok {A} a.
Arguments Err {A} e.

Definition is_Ok {A} (r : result A) : bool :=
  match r with Ok _ => true | Err _ => false end.

(** ** Wire types (types.go) *)

(** [APIResponse[T]], the envelope of every gateway response. *)
Record APIResponse (T : Type) : Type := {
  Status : Z;
  Message : string;
  Result : T
}.
Arguments Status {T} _.
Arguments Message {T} _.
Arguments Result {T} _.

Module Resource.
Record t : Type := {
  ID : Z;
  Title : string;
  Duration : option Z;
  Category : Z;
  Discriminator : string;
  Description : string;
  URI : string;
  Extension : string;
  Mime : string;
  Path : string;
  VideoID : string;
  LiveStatus : string;
  Filesize : string;
  FileSizeHuman : string;
  LiveUrlPlayBackApp : string
}.

(** The assignment [resource.VideoID = code] on the by-value copy. *)
Definition set_VideoID (code : string) (r : t) : t :=
  {| ID := ID r; Title := Title r; Duration := Duration r;
     Category := Category r; Discriminator := Discriminator r;
     Description := Description r; URI := URI r;
     Extension := Extension r; Mime := Mime r; Path := Path r;
     VideoID := code; LiveStatus := LiveStatus r;
     Filesize := Filesize r; FileSizeHuman := FileSizeHuman r;
     LiveUrlPlayBackApp := LiveUrlPlayBackApp r |}.
End Resource.

Module Syllabus.
Inductive t : Type := mk {
  ID : Z;
  ItemID : Z;
  Name : string;
  Type_ : string;
  Depth : string;
  IsResource : Z;
  ResourceTotal : Z;
  Children : list t;
  PreClassResource : list Resource.t;
  InClassMainResource : list Resource.t;
  InClassAssistResource : list Resource.t;
  AfterClassResource : list Resource.t;
  Item_ID : Z;
  Total_Resource : Z;
  Parent_ID : string
}.
End Syllabus.

Module Gradation.
(** [GSyllabus] is a pointer and [EpSyllabus] a slice compared with nil:
    both are options, [None] being nil. *)
Inductive t : Type := mk {
  ID : string;
  Name : string;
  Description : string;
  SyllabusID : string;
  CourseID : string;
  Children : list t;
  GSyllabus : option Syllabus.t;
  EpSyllabus : option (list Syllabus.t)
}.
End Gradation.

Module VideoQuality.
Record resolution : Type := {
  Name : string;
  NameSimple : string;
  Resolution_ : string
}.
Record t : Type := {
  Available : Z;
  FileSize : Z;
  IsWatermark : Z;
  Path : string;
  Resolution : resolution;
  TranscodeID : string
}.
End VideoQuality.

Module VideoResource.
Record t : Type := {
  DefaultType : string;
  Duration : Z;
  Encrypt : Z;
  List : gmap string VideoQuality.t;
  Title : string
}.
End VideoResource.

(** ** Output types (package extractors, as this package fills them) *)

Inductive DataType : Type := DataTypeVideo | DataTypeDocument.

Module Part.
Record t : Type := { URL : string; Size : Z; Ext : string }.
End Part.

Module Stream.
Record t : Type := {
  ID : string;
  Parts : list Part.t;
  Quality : string;
  Size : Z;
  Ext : string;
  NeedMux : bool
}.
End Stream.

Module Data.
Record t : Type := {
  Site : string;
  Title : string;
  Type_ : DataType;
  Streams : gmap string Stream.t;
  URL : string
}.
End Data.

(** Conversion to [int64] of an [int] product: two's complement
    wrap-around at 64 bits. *)
Definition int64 (z : Z) : Z := (z + 2 ^ 63) mod 2 ^ 64 - 2 ^ 63.

(** ** Locator *)

(** [regexp.MustCompile(`(?:course_id|courseId)=(\d+)`)] *)
Definition courseIDPattern : re :=
  Seq (Alt (Lit "course_id") (Lit "courseId"))
      (Seq (Lit "=") (Group (Plus is_digit))).

(** [regexp.MustCompile(`/course/(\d+)`)] *)
Definition pathPattern : re :=
  Seq (Lit "/course/") (Group (Plus is_digit)).

(** [extractCourseID] extracts the course ID from the URL. *)
Definition extractCourseID (URL : string) : result string :=
  match FindStringSubmatch courseIDPattern (of_string URL) with
  | _ :: m1 :: _ => Ok (to_string m1)          (* len(matches) >= 2 *)
  | _ =>
      match FindStringSubmatch pathPattern (of_string URL) with
      | _ :: m1 :: _ => Ok (to_string m1)
      | _ => Err (errors_New "course ID not found in URL")
      end
  end.

(** The deep-link pattern of [extractRoomIDAndToken]. *)
Definition roomIDPattern : re :=
  Seq (Lit "gaodunapp://gd/liveroom/v2/replays/detail?recordId=")
  (Seq (Group (Plus is_alnum))
  (Seq (Lit "&did=")
  (Seq (Plus is_alnum)
  (Seq (Lit "&roomId=")
  (Seq (Group (Plus is_alnum_dash))
  (Seq (Lit "&token=")
       (Group (Plus is_alnum)))))))).

Definition extractRoomIDAndToken (URL : string) : result (string * string) :=
  match FindStringSubmatch roomIDPattern (of_string URL) with
  | _ :: _ :: m2 :: m3 :: _ =>                 (* len(matches) >= 4 *)
      Ok (to_string m2, to_string m3)
  | _ => Err (errors_New "room ID and token not found in URL")
  end.

(** ** Oracles for what Go leaves unspecified *)

(** The order in which a [for ... range] loop visits a map. *)
Class MapRange : Type := {
  range : ∀ {V : Type}, gmap string V → list (string * V);
  range_perm : ∀ {V : Type} (m : gmap string V), range m ≡ₚ map_to_list m
}.

(** The order in which the appends of joined goroutines reach the shared
    slice: an interleaving of the goroutines' own sequences. *)
Inductive interleaves {A : Type} : list (list A) → list A → Prop :=
| interleaves_done qs :
    Forall (λ q, q = []) qs → interleaves qs []
| interleaves_step qs i x q out :
    qs !! i = Some (x :: q) →
    interleaves (<[i := q]> qs) out →
    interleaves qs (x :: out).

Class Scheduler : Type := {
  join : ∀ {A : Type}, list (list A) → list A;
  join_interleaves :
    ∀ {A : Type} (qs : list (list A)), interleaves qs (join qs)
}.

(** The slice shared by a group of goroutines once [wg.Wait()] returns:
    every goroutine contributes the batches it appended, in its order. *)
Definition gather `{Scheduler} {A : Type}
    (batches : list (list (list A))) : list A :=
  concat (join batches).

(** ** Sanitizer *)

Definition replacements : gmap string string :=
  list_to_map
    [ ("/", "-"); ("\", "-"); (":", "-"); ("*", "-"); ("?", "-");
      (String "034" "", "-"); ("<", "-"); (">", "-"); ("|", "-") ].

(** [sanitizeFileName] sanitizes file names to be safe for the
    filesystem. *)
Definition sanitizeFileName `{MapRange} (name : string) : string :=
  let result :=
    foldl (λ result '(old, new),
             ReplaceAll result (of_string old) (of_string new))
          (of_string name) (range replacements) in
  let result := Trim result (of_string " .") in
  let result :=
    if (100 <? len result)%nat
    then TrimRight (slice_to result 100) (of_string " .")
    else result in
  to_string result.

(** ** Remote gateway (client.go) *)

(** The interface [APIClient].  [GStudySyllabus] returns a pointer that
    its caller compares with nil, hence the option; [VideoResource] returns
    a pointer that its caller dereferences at once and that the client
    never leaves nil on success. *)
Class APIClient : Type := {
  GStudy : string → result (list Gradation.t);
  GStudySyllabus : string → string → result (option Syllabus.t);
  GLiveCheck : string → string → result string;
  EpStudy : string → result (list Gradation.t);
  EpStudySyllabus : string → string → result (list Syllabus.t);
  VideoResource : string → string → Z → result VideoResource.t;
  AuthorizeKey : string → result string;
  Headers : gmap string string
}.

(** What the client is built on: the HTTP transport of package [request],
    [compress/gzip], [io] and [encoding/json]. *)
Class Transport : Type := {
  Reader : Type;
  (** [request.Request]: on success the [Content-Encoding] header and the
      body of the response. *)
  request_Request :
    string → string → gmap string string → result (string * Reader);
  gzip_NewReader : Reader → result Reader;
  io_ReadAll : Reader → result bytes;
  (** [json.Unmarshal] at each type the client decodes, and the dynamic
      [map[string]interface{}] of the ep-study syllabus. *)
  JSONValue : Type;
  Unmarshal_Gradations : bytes → result (APIResponse (list Gradation.t));
  Unmarshal_Syllabus : bytes → result (APIResponse Syllabus.t);
  Unmarshal_Object : bytes → result (APIResponse (gmap string JSONValue));
  Unmarshal_Items : bytes → result (list Syllabus.t);
  Unmarshal_VideoResource : bytes → result (APIResponse VideoResource.t);
  Unmarshal_Code : bytes → result (APIResponse string);
  json_Marshal : JSONValue → result bytes
}.

Module Client.
Section client.
Context `{Transport}.

Definition endpoint : string := "https://apigateway.gaodun.com".

(** The struct [client]. *)
Record client : Type := { headers : gmap string string }.

(** [(c *client) do]: merge the headers, send, decompress, read, and
    look for the session-expired marker.  [additionalHeaders] is the
    variadic argument. *)
Definition do (c : client) (method url : string)
    (additionalHeaders : list (gmap string string)) : result bytes :=
  let headers :=
    match additionalHeaders with
    | [] => headers c
    | extra :: _ => extra ∪ headers c
    end in
  match request_Request method url headers with
  | Err err => Err (Errorf_w "failed to make request: %w" err)
  | Ok (encoding, body) =>
      let reader :=
        if Contains (of_string encoding) (of_string "gzip")
        then
          match gzip_NewReader body with
          | Err err => Err (Errorf_w "failed to create gzip reader: %w" err)
          | Ok gzipReader => Ok gzipReader
          end
        else Ok body in
      match reader with
      | Err err => Err err
      | Ok body =>
          match io_ReadAll body with
          | Err err => Err (Errorf_w "failed to read response body: %w" err)
          | Ok bodyBytes =>
              if Contains bodyBytes (of_string "登录超时")
              then Err (errors_New
                "login timeout, please check your authentication token")
              else Ok bodyBytes
          end
      end
  end.

(** The URL that [GStudy] requests. *)
Definition GStudy_url (courseID : string) : string :=
  endpoint +:+ "/g-study/api/v1/front/course/" +:+ courseID
  +:+ "/gradation/syllabus".

Definition GStudy (c : client) (courseID : string)
    : result (list Gradation.t) :=
  let url := GStudy_url courseID in
  match do c "GET" url [] with
  | Err err => Err (Errorf_w "failed to get glive syllabus: %w" err)
  | Ok resp =>
      match Unmarshal_Gradations resp with
      | Err err =>
          Err (Errorf_w "failed to parse glive syllabus response: %w" err)
      | Ok apiResp =>
          if bool_decide (Status apiResp ≠ 0)
          then Err (Errorf_s "API error: %s" (Message apiResp))
          else Ok (Result apiResp)
      end
  end.

(** The URL that [GStudySyllabus] requests. *)
Definition GStudySyllabus_url (courseID syllabusID : string) : string :=
  endpoint +:+ "/g-study/api/v1/front/course/" +:+ courseID
  +:+ "/syllabus/glive/" +:+ syllabusID.

Definition GStudySyllabus (c : client) (courseID syllabusID : string)
    : result (option Syllabus.t) :=
  let url := GStudySyllabus_url courseID syllabusID in
  match do c "GET" url [] with
  | Err err => Err (Errorf_w "failed to get glive syllabus: %w" err)
  | Ok resp =>
      match Unmarshal_Syllabus resp with
      | Err err =>
          Err (Errorf_w "failed to parse glive syllabus response: %w" err)
      | Ok apiResp =>
          if bool_decide (Status apiResp ≠ 0)
          then Err (Errorf_s "API error: %s" (Message apiResp))
          else Ok (Some (Result apiResp))
      end
  end.

(** The URL that [EpStudy] requests. *)
Definition EpStudy_url (courseID : string) : string :=
  endpoint +:+ "/ep-study/front/course/" +:+ courseID +:+ "/gradation".

Definition EpStudy (c : client) (courseID : string)
    : result (list Gradation.t) :=
  let url := EpStudy_url courseID in
  match do c "GET" url [] with
  | Err err => Err (Errorf_w "failed to get glive syllabus: %w" err)
  | Ok resp =>
      match Unmarshal_Gradations resp with
      | Err err =>
          Err (Errorf_w "failed to parse ep gradation response: %w" err)
      | Ok apiResp =>
          if bool_decide (Status apiResp ≠ 0)
          then Err (Errorf_s "API error: %s" (Message apiResp))
          else Ok (Result apiResp)
      end
  end.

(** The URL that [EpStudySyllabus] requests. *)
Definition EpStudySyllabus_url (courseID syllabusID : string) : string :=
  endpoint +:+ "/ep-study/front/course/" +:+ courseID
  +:+ "/syllabus/" +:+ syllabusID +:+ "?show_own_teacher=true".

Definition EpStudySyllabus (c : client) (courseID syllabusID : string)
    : result (list Syllabus.t) :=
  let url := EpStudySyllabus_url courseID syllabusID in
  match do c "GET" url [] with
  | Err err => Err (Errorf_w "failed to get glive syllabus: %w" err)
  | Ok resp =>
      match Unmarshal_Object resp with
      | Err err =>
          Err (Errorf_w "failed to parse ep syllabus response: %w" err)
      | Ok apiResp =>
          if bool_decide (Status apiResp ≠ 0)
          then Err (Errorf_s "API error: %s" (Message apiResp))
          else
            match Result apiResp !! "items" with
            | None =>
                Err (errors_New "no items found in ep syllabus response")
            | Some items =>
                match json_Marshal items with
                | Err err => Err (Errorf_w "failed to marshal items: %w" err)
                | Ok itemsBytes =>
                    match Unmarshal_Items itemsBytes with
                    | Err err =>
                        Err (Errorf_w
                               "failed to unmarshal syllabus items: %w" err)
                    | Ok syllabusItems => Ok syllabusItems
                    end
                end
            end
      end
  end.

(** The URL that [VideoResource] requests. *)
Definition VideoResource_url (code res : string) (channel : Z) : string :=
  endpoint +:+ "/glive2-vod/api/v1/live/resource?code=" +:+ code
  +:+ "&res=" +:+ res +:+ "&channel=" +:+ Itoa channel.

Definition VideoResource (c : client) (code res : string) (channel : Z)
    : result VideoResource.t :=
  let url := VideoResource_url code res channel in
  match do c "GET" url [ {[ "isLiveVodAuthenticate" := "true" ]} ] with
  | Err err => Err (Errorf_w "failed to get glive syllabus: %w" err)
  | Ok resp =>
      match Unmarshal_VideoResource resp with
      | Err err =>
          Err (Errorf_w "failed to parse video resource response: %w" err)
      | Ok apiResp =>
          if bool_decide (Status apiResp ≠ 200)
          then Err (Errorf_s "API error: %s" (Message apiResp))
          else Ok (Result apiResp)
      end
  end.

(** The URL that [GLiveCheck] requests. *)
Definition GLiveCheck_url (roomId token : string) : string :=
  endpoint +:+ "/glive2-vod/api/v1/vod/check?roomId=" +:+ roomId
  +:+ "&token=" +:+ token.

Definition GLiveCheck (c : client) (roomId token : string) : result string :=
  let url := GLiveCheck_url roomId token in
  match do c "GET" url [ {[ "isLiveVodAuthenticate" := "true" ]} ] with
  | Err err => Err (Errorf_w "failed to check glive vod: %w" err)
  | Ok resp =>
      match Unmarshal_Code resp with
      | Err err =>
          Err (Errorf_w "failed to parse glive check response: %w" err)
      | Ok apiResp =>
          if bool_decide (Status apiResp ≠ 200)
          then Err (Errorf_s "API error: %s" (Message apiResp))
          else Ok (Result apiResp)
      end
  end.

(** The URL that [AuthorizeKey] requests. *)
Definition AuthorizeKey_url (id : string) : string :=
  endpoint +:+ "/glive2-vod/api/v1/replay/authorizeKey?id=" +:+ id.

Definition AuthorizeKey (c : client) (id : string) : result string :=
  let url := AuthorizeKey_url id in
  match do c "GET" url [] with
  | Err err => Err (Errorf_w "failed to get glive syllabus: %w" err)
  | Ok resp => Ok (to_string resp)
  end.

(** [maps.Clone(c.headers)] *)
Definition Headers (c : client) : gmap string string := headers c.

End client.
End Client.

(** [*client] implements [APIClient]. *)
Definition client_APIClient `{Transport} (c : Client.client) : APIClient := {|
  GStudy := Client.GStudy c;
  GStudySyllabus := Client.GStudySyllabus c;
  GLiveCheck := Client.GLiveCheck c;
  EpStudy := Client.EpStudy c;
  EpStudySyllabus := Client.EpStudySyllabus c;
  VideoResource := Client.VideoResource c;
  AuthorizeKey := Client.AuthorizeKey c;
  Headers := Client.Headers c
|}.

(** ** The extractor (gaodun.go) *)

(** Library functions the extractor calls and this file does not look
    into: [filepath.Join], [strconv.Atoi] and the manifest expansion
    [utils.M3u8URLsWithHeaders]. *)
Class Library : Type := {
  filepath_Join : list string → string;
  strconv_Atoi : string → result Z;
  utils_M3u8URLsWithHeaders :
    string → gmap string string → result (list string)
}.

Section extractor.
Context `{APIClient, MapRange, Scheduler, Library}.

Definition isGStudyCourse (courseID : string) : result bool :=
  match GStudy courseID with
  | Err err => Err (WithStack err)
  | Ok gs =>
      match gs with
      | [] => Err (errors_New "no G-Study course found")
      | g :: _ =>
          (* Use the first gradation as representative *)
          match Gradation.GSyllabus g, Gradation.EpSyllabus g with
          | Some _, None => Ok true
          | _, _ => Ok false
          end
      end
  end.

(** [extractEpStudyResources], a placeholder in the source. *)
Definition extractEpStudyResources (syllabus : Syllabus.t) (baseDir : string)
    : result (list Data.t) :=
  Ok [].

(** The body of the quality loop of [processVideoResource]: one pass
    for the entry [(quality, qualityInfo)] of [videoRes.List]. *)
Definition quality_step (resource : Resource.t)
    (streams : gmap string Stream.t)
    (entry : string * VideoQuality.t) : gmap string Stream.t :=
  let '(quality, qualityInfo) := entry in
  if bool_decide (VideoQuality.Available qualityInfo ≠ 1)
     || bool_decide (VideoQuality.Path qualityInfo = "")
  then streams
  else
    match utils_M3u8URLsWithHeaders (VideoQuality.Path qualityInfo) Headers with
    | Err _ => streams
    | Ok urls =>
        let parts :=
          map (λ url, {| Part.URL := url; Part.Size := 0; Part.Ext := "ts" |})
              urls in
        let id := Resource.VideoID resource +:+ "_" +:+ quality in
        <[ id :=
           {| Stream.ID := id;
              Stream.Parts := parts;
              Stream.Quality :=
                VideoQuality.Resolution_ (VideoQuality.Resolution qualityInfo);
              Stream.Size := int64 (VideoQuality.FileSize qualityInfo * 1024);
              Stream.Ext := "";
              Stream.NeedMux := false |} ]> streams
    end.

(** [processVideoResource] processes video resources. *)
Definition processVideoResource (resource : Resource.t) (baseDir : string)
    : result (option Data.t) :=
  let videoID := Resource.VideoID resource in
  match VideoResource videoID "SD" 0 with
  | Err err => Err (WithStack err)
  | Ok videoRes =>
      let streams :=
        foldl (quality_step resource) ∅
              (range (VideoResource.List videoRes)) in
      if bool_decide (size streams = 0%nat)
      then Err (errors_New "no available video streams")
      else
        let filename := sanitizeFileName (Resource.Title resource) in
        let filename :=
          if bool_decide (filename = "")
          then "video_" +:+ Itoa (Resource.ID resource)
          else filename in
        Ok (Some
          {| Data.Site := "高顿教育 gaodun.com";
             Data.Title := filepath_Join [baseDir; filename];
             Data.Type_ := DataTypeVideo;
             Data.Streams := streams;
             Data.URL := "gaodun://video/" +:+ videoID |})
  end.

(** [processNonVideoResource] processes PDFs and documents. *)
Definition processNonVideoResource (resource : Resource.t) (baseDir : string)
    : result (option Data.t) :=
  if bool_decide (Resource.Path resource = "")
  then Ok None
  else
    let ext := Resource.Extension resource in
    let ext :=
      if bool_decide (ext = "")
      then
        let mime := Resource.Mime resource in
        if bool_decide (mime = "application/pdf") then "pdf"
        else if bool_decide (mime = "application/msword") then "doc"
        else if bool_decide
          (mime = "application/vnd.openxmlformats-officedocument.wordprocessingml.document")
        then "docx"
        else "file"
      else ext in
    let filename := sanitizeFileName (Resource.Title resource) in
    let filename :=
      if bool_decide (filename = "")
      then "document_" +:+ Itoa (Resource.ID resource)
      else filename in
    let size :=
      match strconv_Atoi (Resource.Filesize resource) with
      | Err _ => 0
      | Ok size => size
      end in
    let parts :=
      [ {| Part.URL := Resource.Path resource;
           Part.Size := size;
           Part.Ext := ext |} ] in
    let id := Itoa (Resource.ID resource) in
    let streams : gmap string Stream.t :=
      <[ id := {| Stream.ID := id;
                  Stream.Parts := parts;
                  Stream.Quality := "Unknown";
                  Stream.Size := size;
                  Stream.Ext := ext;
                  Stream.NeedMux := false |} ]> ∅ in
    Ok (Some
      {| Data.Site := "高顿教育 gaodun.com";
         Data.Title := filepath_Join [baseDir; filename];
         Data.Type_ := DataTypeDocument;
         Data.Streams := streams;
         Data.URL := Resource.Path resource |}).

(** [processResource] handles one resource; [Ok None] is Go's
    [(nil, nil)]. *)
Definition processResource (resource : Resource.t) (baseDir : string)
    : result (option Data.t) :=
  let discriminator := Resource.Discriminator resource in
  if bool_decide (discriminator = "live_new") then
    match extractRoomIDAndToken (Resource.LiveUrlPlayBackApp resource) with
    | Err _ => Ok None
    | Ok (roomID, token) =>
        match GLiveCheck roomID token with
        | Err _ => Ok None
        | Ok code =>
            processVideoResource (Resource.set_VideoID code resource) baseDir
        end
    end
  else if bool_decide (discriminator = "video") then
    processVideoResource resource baseDir
  else if bool_decide (discriminator = "lecture_note") then
    processNonVideoResource resource baseDir
  else Ok None.

(** [extractResources]: one goroutine per resource, each appending at
    most one descriptor. *)
Definition extractResources (resources : list Resource.t) (baseDir : string)
    : result (list Data.t) :=
  Ok (gather
    (map (λ res,
            match processResource res baseDir with
            | Err _ => []
            | Ok None => []
            | Ok (Some data) => [[data]]
            end)
         resources)).

(** The four resource slots of a schema-A syllabus node. *)
Definition resourceGroups (syllabus : Syllabus.t)
    : list (list Resource.t * string) :=
  [ (Syllabus.PreClassResource syllabus, "课前");
    (Syllabus.InClassMainResource syllabus, "课程");
    (Syllabus.InClassAssistResource syllabus, "课辅");
    (Syllabus.AfterClassResource syllabus, "课后") ].

(** [extractGStudySyllabus]: the children first, joined; then the
    non-empty resource slots, joined. *)
Fixpoint extractGStudySyllabus (courseID gradationName : string)
    (syllabus : Syllabus.t) : result (list Data.t) :=
  let allData : list Data.t :=
    if (0 <? length (Syllabus.Children syllabus))%nat
    then
      gather
        (map (λ childSyl,
                match extractGStudySyllabus courseID gradationName childSyl with
                | Err _ => []
                | Ok childData => [childData]
                end)
             (Syllabus.Children syllabus))
    else [] in
  let baseDir :=
    filepath_Join [courseID; sanitizeFileName gradationName;
                   sanitizeFileName (Syllabus.Name syllabus)] in
  let allData :=
    allData ++
    gather
      (map (λ group : list Resource.t * string,
              match extractResources (fst group) (filepath_Join [baseDir]) with
              | Err _ => []
              | Ok resourceData => [resourceData]
              end)
           (filter (λ group : list Resource.t * string,
                      length (fst group) ≠ 0%nat)
                   (resourceGroups syllabus))) in
  Ok allData.

(** The goroutine that [extractEpStudySyllabus] starts for one item:
    the batches it appends to the shared slice, in order. *)
Fixpoint extractEpStudySyllabus_item (courseID gradationName : string)
    (syllabus : Syllabus.t) : list (list Data.t) :=
  let children :=
    if (0 <? length (Syllabus.Children syllabus))%nat
    then
      (* the recursive call on [syllabus.Children], which never fails *)
      [ gather (map (extractEpStudySyllabus_item courseID gradationName)
                    (Syllabus.Children syllabus)) ]
    else [] in
  if bool_decide (Syllabus.IsResource syllabus = 0)
  then children
  else
    let baseDir :=
      filepath_Join [courseID; sanitizeFileName gradationName;
                     sanitizeFileName (Syllabus.Name syllabus)] in
    match extractEpStudyResources syllabus baseDir with
    | Err _ => children
    | Ok resourceData => children ++ [resourceData]
    end.

(** [extractEpStudySyllabus] extracts resources from Ep-Study items. *)
Definition extractEpStudySyllabus (courseID gradationName : string)
    (syllabusItems : list Syllabus.t) : result (list Data.t) :=
  Ok (gather (map (extractEpStudySyllabus_item courseID gradationName)
                  syllabusItems)).

(** [extractGStudyCourse] extracts data from G-Study courses. *)
Definition extractGStudyCourse (courseID : string) : result (list Data.t) :=
  match GStudy courseID with
  | Err err => Err (WithStack err)
  | Ok gradations =>
      Ok (gather
        (map (λ grad,
                match Gradation.GSyllabus grad with
                | None => []
                | Some _ =>
                    match GStudySyllabus courseID
                            (Gradation.SyllabusID grad) with
                    | Err _ | Ok None => []
                    | Ok (Some syllabus) =>
                        match extractGStudySyllabus courseID
                                (Gradation.Name grad) syllabus with
                        | Err _ => []
                        | Ok data => [data]
                        end
                    end
                end)
             gradations))
  end.

(** [extractEpStudyCourse] extracts data from Ep-Study courses. *)
Definition extractEpStudyCourse (courseID : string) : result (list Data.t) :=
  match EpStudy courseID with
  | Err err => Err (WithStack err)
  | Ok gradations =>
      Ok (gather
        (map (λ grad,
                let syllabusID := Gradation.ID grad in
                if bool_decide (syllabusID = "")
                then []
                else
                  match EpStudySyllabus courseID syllabusID with
                  | Err _ => []
                  | Ok syllabus =>
                      match extractEpStudySyllabus courseID
                              (Gradation.Name grad) syllabus with
                      | Err _ => []
                      | Ok data => [data]
                      end
                  end)
             gradations))
  end.

(** [Extract], with the client of [NewClient()] as the [APIClient] of
    the context. *)
Definition Extract (URL : string) : result (list Data.t) :=
  match extractCourseID URL with
  | Err err => Err (WithStack err)
  | Ok courseID =>
      match isGStudyCourse courseID with
      | Err err => Err (WithStack err)
      | Ok isGStudy =>
          let r :=
            if isGStudy
            then extractGStudyCourse courseID
            else extractEpStudyCourse courseID in
          match r with
          | Err err => Err (WithStack err)
          | Ok allData => Ok allData
          end
      end
  end.

End extractor.


(** ** The device ID of the client (client.go) *)

(** The lower-case hexadecimal digit of a value below 16. *)
Definition hex_digit (n : nat) : ascii :=
  nth n (of_string "0123456789abcdef") "0"%char.

(** The verb [%x] of [fmt.Sprintf] on a byte slice: two digits a byte. *)
Definition Sprintf_x (b : bytes) : string :=
  to_string
    (concat (map (λ c, [hex_digit (nat_of_ascii c / 16);
                        hex_digit (nat_of_ascii c mod 16)]) b)).

(** [generateDeviceID]; [random] is what [rand.Read] leaves in the buffer
    of 33 bytes, or its error. *)
Definition generateDeviceID (random : result bytes) : string :=
  match random with
  | Err _ => "24ca6c8e5eed9334b822c28eda895e70a"
  | Ok b => Sprintf_x (<[0%nat := "2"%char]> b)
  end.

(** ** The command (app.go) *)

(** What the command is built on: the extractor registry, the
    downloader, the JSON encoder of the standard output, the file system
    and [strings.TrimSpace].  [Item] is [*extractors.Data] as the command
    sees it: a value with an [Err] field. *)
Class Command : Type := {
  Item : Type;
  item_Err : Item → option error;
  extractors_Extract : string → result (list Item);
  json_Encode : list Item → option error;
  downloader_Download : Item → option error;
  File : Type;
  os_Open : string → result File;
  utils_ParseInputFile : File → list string;
  os_Stat : string → bool;
  os_ReadFile : string → result bytes;
  strings_TrimSpace : string → string
}.

(** The flags the two functions read. *)
Record Flags : Type := {
  jsonOutput : bool;
  file : string;
  cookie : string
}.

Module App.
Section app.
Context `{Command}.

(** What a run does to the world, in order. *)
Inductive event : Type :=
| Encoded (data : list Item)      (* the descriptors printed as JSON *)
| Downloaded (item : Item)        (* [Download] called on an item *)
| SetOptions (cookie : string).   (* [request.SetOptions], with its cookie *)

(** The item loop of [downloadURL]: the downloads started and the
    errors collected, both in order. *)
Fixpoint download_items (data : list Item) : list event * list error :=
  match data with
  | [] => ([], [])
  | item :: data' =>
      let '(events, errors) := download_items data' in
      match item_Err item with
      | Some err => (events, err :: errors)
      | None =>
          match downloader_Download item with
          | Some err => (Downloaded item :: events, err :: errors)
          | None => (Downloaded item :: events, errors)
          end
      end
  end.

(** [downloadURL] downloads a single URL; [None] is the nil error. *)
Definition downloadURL (flags : Flags) (videoURL : string)
    : list event * option error :=
  match extractors_Extract videoURL with
  | Err err => ([], Some err)
  | Ok data =>
      if jsonOutput flags
      then ([Encoded data], json_Encode data)
      else
        let '(events, errors) := download_items data in
        (events, head errors)
  end.

(** The URL loop of [runDownload]: the events of every URL, and whether
    one of them failed. *)
Fixpoint download_urls (flags : Flags) (urls : list string)
    : list event * bool :=
  match urls with
  | [] => ([], false)
  | videoURL :: urls' =>
      let '(events, err) := downloadURL flags videoURL in
      let '(events', hasError) := download_urls flags urls' in
      (events ++ events', bool_decide (err ≠ None) || hasError)
  end.

(** [runDownload]; [args] are the URLs of the command line.  The two
    verbs of the format of the first error are [%s], filled in here, and
    [%w]. *)
Definition runDownload (flags : Flags) (args : list string)
    : list event * option error :=
  let fileItems :=
    if bool_decide (file flags ≠ "")
    then
      match os_Open (file flags) with
      | Err err => Err err
      | Ok f => Ok (utils_ParseInputFile f)
      end
    else Ok [] in
  match fileItems with
  | Err err =>
      ([], Some (Errorf_w ("failed to open file " +:+ file flags +:+ ": %w")
                          err))
  | Ok fileItems =>
      let urls := fileItems ++ args in
      if (length urls <? 1)%nat
      then ([], Some (errors_New "no URLs provided"))
      else
        let finalCookie :=
          if bool_decide (cookie flags ≠ "") && os_Stat (cookie flags)
          then
            match os_ReadFile (cookie flags) with
            | Err err => Err err
            | Ok data => Ok (strings_TrimSpace (to_string data))
            end
          else Ok (cookie flags) in
        match finalCookie with
        | Err err =>
            ([], Some (Errorf_w "failed to read cookie file: %w" err))
        | Ok finalCookie =>
            let '(events, hasError) := download_urls flags urls in
            (SetOptions finalCookie :: events,
             if hasError
             then Some (errors_New "some downloads failed")
             else None)
        end
  end.

End app.
End App.
(** * Properties *)

(** ** Vocabulary of the statements *)

(** The iteration order of [map_to_list]; one possible run. *)
#[local] Instance canonical_range : MapRange :=
  {| range := λ V m, map_to_list m; range_perm := λ V m, reflexivity _ |}.

(** The nine banned characters: slash, backslash, colon, star, question
    mark, double quote, less than, greater than and the vertical bar. *)
Definition banned : bytes :=
  of_string "/\:*?" ++ ["034"%char] ++ of_string "<>|".

(** What the replacement loop computes, whatever the order of the loop. *)
Definition dash_banned (s : bytes) : bytes :=
  map (λ c, if in_cutset banned c then "-"%char else c) s.

(** What follows the loop: trim, truncate to 100 bytes, trim again. *)
Definition trim_and_truncate (s : bytes) : bytes :=
  let result := Trim s (of_string " .") in
  if (100 <? len result)%nat
  then TrimRight (slice_to result 100) (of_string " .")
  else result.

(** The characters some entry of [entries] replaces. *)
Definition olds (entries : list (string * string)) : bytes :=
  concat (map (λ e, of_string e.1) entries).

(** The longest prefix of [s] whose bytes satisfy [p], and what is left. *)
Fixpoint take_while (p : ascii → bool) (s : bytes) : bytes :=
  match s with
  | c :: s' => if p c then c :: take_while p s' else []
  | [] => []
  end.

Fixpoint drop_while (p : ascii → bool) (s : bytes) : bytes :=
  match s with
  | c :: s' => if p c then drop_while p s' else s
  | [] => []
  end.

(** [N] is a non-empty run of digits that ends where [post] begins. *)
Definition digit_run (N post : bytes) : Prop :=
  N ≠ [] ∧ Forall (λ c, is_digit c = true) N
  ∧ ∀ c, head post = Some c → is_digit c = false.

(** One of [keys] stands in [u] right after [pre], followed by the digit
    run [N]. *)
Definition occurs (keys : list string) (u pre N : bytes) : Prop :=
  ∃ key post,
    key ∈ keys ∧ u = pre ++ of_string key ++ N ++ post ∧ digit_run N post.

(** [N] is the digit run of the leftmost such occurrence in [u]. *)
Definition first_occurs (keys : list string) (u N : bytes) : Prop :=
  ∃ pre, occurs keys u pre N
         ∧ ∀ pre' N',
             (length pre' < length pre)%nat → ¬ occurs keys u pre' N'.

Definition no_occurrence (keys : list string) (u : bytes) : Prop :=
  ∀ pre N, ¬ occurs keys u pre N.

Definition query_keys : list string := ["course_id="; "courseId="].
Definition path_keys : list string := ["/course/"].

(** The digits that follow [key] at the head of [s], if [key] is there
    and a digit follows. *)
Definition key_digits (key : string) (s : bytes) : option bytes :=
  if HasPrefix s (of_string key)
  then match take_while is_digit (drop (length (of_string key)) s) with
       | [] => None
       | N => Some N
       end
  else None.

(** The text matched when [key] and its digits stand at the head of [s]. *)
Definition whole_match (key : string) (s : bytes) : bytes :=
  take (length s
        - length (drop_while is_digit (drop (length (of_string key)) s))) s.

(** A decision procedure for the side conditions, for concrete URLs. *)
Definition no_key_at (keys : list string) (u : bytes) (i : nat) : bool :=
  forallb (λ key, bool_decide (key_digits key (drop i u) = None)) keys.

Definition no_key_before (keys : list string) (u : bytes) (n : nat) : bool :=
  forallb (no_key_at keys u) (seq 0 n).

(** The part built for one segment URL of a manifest. *)
Definition ts_part (url : string) : Part.t :=
  {| Part.URL := url; Part.Size := 0; Part.Ext := "ts" |}.

(** A quality entry that the loop of [processVideoResource] turns into a
    stream: available, with a manifest path, whose expansion succeeds with
    the segment URLs [urls]. *)
Definition usable `{APIClient, Library} (qualityInfo : VideoQuality.t)
    (urls : list string) : Prop :=
  VideoQuality.Available qualityInfo = 1
  ∧ VideoQuality.Path qualityInfo ≠ ""
  ∧ utils_M3u8URLsWithHeaders (VideoQuality.Path qualityInfo) Headers = Ok urls.

(** What a successful [processVideoResource] returns for [resource]. *)
Definition video_descriptor `{APIClient, Library} (resource : Resource.t)
    (r : option Data.t) : Prop :=
  ∃ data videoRes,
    r = Some data
    ∧ VideoResource (Resource.VideoID resource) "SD" 0 = Ok videoRes
    ∧ Data.Streams data ≠ ∅
    ∧ (∀ id st, Data.Streams data !! id = Some st →
         ∃ quality qualityInfo urls,
           VideoResource.List videoRes !! quality = Some qualityInfo
           ∧ usable qualityInfo urls
           ∧ id = Resource.VideoID resource +:+ "_" +:+ quality
           ∧ Stream.Parts st = map ts_part urls)
    ∧ ((∀ path urls,
          utils_M3u8URLsWithHeaders path Headers = Ok urls → urls ≠ []) →
       ∀ id st, Data.Streams data !! id = Some st → Stream.Parts st ≠ []).

(** The classification of [isGStudyCourse] by the first gradation. *)
Definition schema_A (g : Gradation.t) : bool :=
  bool_decide (Gradation.GSyllabus g ≠ None ∧ Gradation.EpSyllabus g = None).

(** *** A small remote catalogue, for the examples *)

Definition demo_quality (available : Z) (path : string) : VideoQuality.t :=
  {| VideoQuality.Available := available;
     VideoQuality.FileSize := 2;
     VideoQuality.IsWatermark := 0;
     VideoQuality.Path := path;
     VideoQuality.Resolution :=
       {| VideoQuality.Name := "standard"; VideoQuality.NameSimple := "SD";
          VideoQuality.Resolution_ := "480p" |};
     VideoQuality.TranscodeID := "t" |}.

Definition demo_syllabus (name : string) (isResource : Z)
    (children : list Syllabus.t) : Syllabus.t :=
  {| Syllabus.ID := 1; Syllabus.ItemID := 1; Syllabus.Name := name;
     Syllabus.Type_ := "1"; Syllabus.Depth := "1";
     Syllabus.IsResource := isResource; Syllabus.ResourceTotal := 0;
     Syllabus.Children := children;
     Syllabus.PreClassResource := []; Syllabus.InClassMainResource := [];
     Syllabus.InClassAssistResource := []; Syllabus.AfterClassResource := [];
     Syllabus.Item_ID := 1; Syllabus.Total_Resource := 0;
     Syllabus.Parent_ID := "0" |}.

Definition demo_gradation (id : string) (g : option Syllabus.t)
    (ep : option (list Syllabus.t)) : Gradation.t :=
  {| Gradation.ID := id; Gradation.Name := "stage"; Gradation.Description := "";
     Gradation.SyllabusID := "49752"; Gradation.CourseID := "1";
     Gradation.Children := []; Gradation.GSyllabus := g;
     Gradation.EpSyllabus := ep |}.

(** Course 33795 is of schema A, course 17244 of schema B, course 0 has
    no gradation.  The quality list of the video [code] has the one entry
    [SD], with the manifest path [code]; the video [none] has it marked
    unavailable.  No live room can be checked. *)
Definition demo_api : APIClient :=
  {| GStudy := λ courseID,
       if bool_decide (courseID = "33795")
       then Ok [demo_gradation "1" (Some (demo_syllabus "root" 0 [])) None;
                demo_gradation "2" None (Some [])]
       else if bool_decide (courseID = "17244")
       then Ok [demo_gradation "1" None (Some [])]
       else Ok [];
     GStudySyllabus := λ _ _, Ok (Some (demo_syllabus "root" 0 []));
     GLiveCheck := λ _ _, Err (errors_New "API error: token expired");
     EpStudy := λ _, Ok [demo_gradation "17785" None None];
     EpStudySyllabus := λ _ _,
       Ok [demo_syllabus "chapter" 0 [demo_syllabus "lesson" 1 []]];
     VideoResource := λ code _ _,
       Ok {| VideoResource.DefaultType := "SD"; VideoResource.Duration := 60;
             VideoResource.Encrypt := 0;
             VideoResource.List :=
               {[ "SD" := demo_quality (if bool_decide (code = "none")
                                        then 0 else 1) code ]};
             VideoResource.Title := "video" |};
     AuthorizeKey := λ _, Ok "key";
     Headers := ∅ |}.

(** The manifest [empty] expands to no segment, the manifest [broken]
    fails to expand, any other to two segments. *)
Definition demo_library : Library :=
  {| filepath_Join := λ elems, String.concat "/" elems;
     strconv_Atoi := λ _, Err (External "strconv.Atoi: invalid syntax");
     utils_M3u8URLsWithHeaders := λ path _,
       if bool_decide (path = "empty") then Ok []
       else if bool_decide (path = "broken")
       then Err (External "request failed")
       else Ok [path +:+ "/0.ts"; path +:+ "/1.ts"] |}.

Definition demo_resource (discriminator videoID liveUrl : string)
    : Resource.t :=
  {| Resource.ID := 7; Resource.Title := "Lesson 1: intro";
     Resource.Duration := None; Resource.Category := 0;
     Resource.Discriminator := discriminator; Resource.Description := "";
     Resource.URI := ""; Resource.Extension := ""; Resource.Mime := "";
     Resource.Path := ""; Resource.VideoID := videoID;
     Resource.LiveStatus := ""; Resource.Filesize := "";
     Resource.FileSizeHuman := ""; Resource.LiveUrlPlayBackApp := liveUrl |}.

(** The error a gateway call builds from a rejected status: it carries
    the message of the response, and nothing else of it. *)
Definition api_status_error (message : string) : error :=
  Errorf_s "API error: %s" message.

Definition is_api_status_error {T} (r : result T) : Prop :=
  ∃ message, r = Err (api_status_error message).

(** What a call that accepts the status [ok] returns for the decoded
    response [apiResp]. *)
Definition status_rule {T U} (ok : Z) (apiResp : APIResponse T)
    (r : result U) : Prop :=
  (Status apiResp ≠ ok → r = Err (api_status_error (Message apiResp)))
  ∧ (Status apiResp = ok → ¬ is_api_status_error r).

(** A transport whose every response decodes to the status [status] and
    the message [success]. *)
Definition demo_transport (status : Z) : Transport :=
  {| Reader := bytes;
     request_Request := λ _ _ _, Ok ("", of_string "{}");
     gzip_NewReader := λ body, Ok body;
     io_ReadAll := λ body, Ok body;
     JSONValue := bytes;
     Unmarshal_Gradations := λ _,
       Ok {| Status := status; Message := "success"; Result := [] |};
     Unmarshal_Syllabus := λ _,
       Ok {| Status := status; Message := "success";
             Result := demo_syllabus "root" 0 [] |};
     Unmarshal_Object := λ _,
       Ok {| Status := status; Message := "success";
             Result := {[ "items" := of_string "[]" ]} |};
     Unmarshal_Items := λ _, Ok [];
     Unmarshal_VideoResource := λ _,
       Ok {| Status := status; Message := "success";
             Result :=
               {| VideoResource.DefaultType := "SD";
                  VideoResource.Duration := 60;
                  VideoResource.Encrypt := 0;
                  VideoResource.List := ∅;
                  VideoResource.Title := "video" |} |};
     Unmarshal_Code := λ _,
       Ok {| Status := status; Message := "success"; Result := "code" |};
     json_Marshal := λ items, Ok items |}.

Definition demo_client : Client.client := {| Client.headers := ∅ |}.


(** ** Vocabulary of the further properties *)

(** *** The language of a pattern *)

(** [derives r m caps]: the text [m] belongs to the language of [r], and
    matching it closes the groups [caps], in order. *)
Inductive derives : re → bytes → list bytes → Prop :=
| derives_Lit l : derives (Lit l) (of_string l) []
| derives_Plus class N :
    N ≠ [] → Forall (λ c, class c = true) N → derives (Plus class) N []
| derives_Alt_l r1 r2 m caps : derives r1 m caps → derives (Alt r1 r2) m caps
| derives_Alt_r r1 r2 m caps : derives r2 m caps → derives (Alt r1 r2) m caps
| derives_Seq r1 r2 m1 m2 caps1 caps2 :
    derives r1 m1 caps1 → derives r2 m2 caps2 →
    derives (Seq r1 r2) (m1 ++ m2) (caps1 ++ caps2)
| derives_Group r m caps :
    derives r m caps → derives (Group r) m (caps ++ [m]).

(** A non-empty text over a character class. *)
Definition word (class : ascii → bool) (w : bytes) : Prop :=
  w ≠ [] ∧ Forall (λ c, class c = true) w.

(** The fixed text in front of the record id of a replay deep link. *)
Definition replay_scheme : string :=
  "gaodunapp://gd/liveroom/v2/replays/detail?recordId=".

(** The replay deep link of a record, a device, a room and a token. *)
Definition replay_link (recordId did roomId token : bytes) : bytes :=
  of_string replay_scheme ++ recordId ++ of_string "&did=" ++ did
  ++ of_string "&roomId=" ++ roomId ++ of_string "&token=" ++ token.

(** A name the sanitizer has nothing to do on. *)
Definition safe_name (s : bytes) : Prop :=
  Forall (λ c, c ∉ banned) s
  ∧ (length s ≤ 100)%nat
  ∧ (∀ c, head s = Some c → c ∉ of_string " .")
  ∧ (∀ c, last s = Some c → c ∉ of_string " .").

(** The stream that [processVideoResource] stores for the quality
    [quality] of [resource], expanded to the segment URLs [urls]. *)
Definition video_stream (resource : Resource.t) (quality : string)
    (qualityInfo : VideoQuality.t) (urls : list string) : Stream.t :=
  {| Stream.ID := Resource.VideoID resource +:+ "_" +:+ quality;
     Stream.Parts := map ts_part urls;
     Stream.Quality :=
       VideoQuality.Resolution_ (VideoQuality.Resolution qualityInfo);
     Stream.Size := int64 (VideoQuality.FileSize qualityInfo * 1024);
     Stream.Ext := "";
     Stream.NeedMux := false |}.

(** Two results that differ at most in the order of their lists. *)
Definition same_up_to_order {A} (r1 r2 : result (list A)) : Prop :=
  match r1, r2 with
  | Ok l1, Ok l2 => l1 ≡ₚ l2
  | Err e1, Err e2 => e1 = e2
  | _, _ => False
  end.

(** The descriptors of the resources of a list, in the order of the
    list; a resource that fails or is skipped has none. *)
Definition resolved `{APIClient, MapRange, Library}
    (resources : list Resource.t) (baseDir : string) : list Data.t :=
  concat (map (λ res,
                 match processResource res baseDir with
                 | Ok (Some data) => [data]
                 | _ => []
                 end)
              resources).

(** The number of resource records in the four slots of the nodes of a
    syllabus tree. *)
Fixpoint resource_count (syllabus : Syllabus.t) : nat :=
  (length (Syllabus.PreClassResource syllabus)
   + length (Syllabus.InClassMainResource syllabus)
   + length (Syllabus.InClassAssistResource syllabus)
   + length (Syllabus.AfterClassResource syllabus)
   + list_sum (map resource_count (Syllabus.Children syllabus)))%nat.

(** The marker of an expired session in a response body, and the error
    [do] returns for it. *)
Definition session_expired_marker : bytes := of_string "登录超时".

Definition login_timeout : error :=
  errors_New "login timeout, please check your authentication token".

(** A transport that answers every request with the body [body], sent
    plain or compressed. *)
Definition answers_with `{Transport} (body : bytes) : Prop :=
  ∀ method url headers,
    ∃ encoding reader,
      request_Request method url headers = Ok (encoding, reader)
      ∧ ((Contains (of_string encoding) (of_string "gzip") = false
          ∧ io_ReadAll reader = Ok body)
         ∨ (Contains (of_string encoding) (of_string "gzip") = true
            ∧ ∃ gzipReader, gzip_NewReader reader = Ok gzipReader
                            ∧ io_ReadAll gzipReader = Ok body)).

(** A transport that sends, compressed, the body [body], which decodes
    to the accepted status of every call. *)
Definition demo_gzip_transport (body : bytes) : Transport :=
  {| Reader := bytes;
     request_Request := λ _ _ _, Ok ("gzip", of_string "compressed");
     gzip_NewReader := λ _, Ok body;
     io_ReadAll := λ reader, Ok reader;
     JSONValue := bytes;
     Unmarshal_Gradations := λ _,
       Ok {| Status := 0; Message := "success"; Result := [] |};
     Unmarshal_Syllabus := λ _,
       Ok {| Status := 0; Message := "success";
             Result := demo_syllabus "root" 0 [] |};
     Unmarshal_Object := λ _,
       Ok {| Status := 0; Message := "success";
             Result := {[ "items" := of_string "[]" ]} |};
     Unmarshal_Items := λ _, Ok [];
     Unmarshal_VideoResource := λ _,
       Ok {| Status := 200; Message := "success";
             Result :=
               {| VideoResource.DefaultType := "SD";
                  VideoResource.Duration := 60;
                  VideoResource.Encrypt := 0;
                  VideoResource.List := ∅;
                  VideoResource.Title := "video" |} |};
     Unmarshal_Code := λ _,
       Ok {| Status := 200; Message := "success"; Result := "code" |};
     json_Marshal := λ items, Ok items |}.

(** A lower-case hexadecimal digit. *)
Definition is_hex (c : ascii) : Prop := c ∈ of_string "0123456789abcdef".

(** The error of an item of [downloadURL], its own or that of its
    download. *)
Definition item_error `{Command} (item : Item) : option error :=
  match item_Err item with
  | Some err => Some err
  | None => downloader_Download item
  end.

(** The flags and the file system let [runDownload] reach its loop: the
    URL file, if one is given, opens and lists [fileItems], and the
    cookie, if it names a file, reads as [finalCookie]. *)
Definition inputs_ready `{Command} (flags : Flags)
    (fileItems : list string) (finalCookie : string) : Prop :=
  (if bool_decide (file flags ≠ "")
   then ∃ f, os_Open (file flags) = Ok f ∧ utils_ParseInputFile f = fileItems
   else fileItems = [])
  ∧ (if bool_decide (cookie flags ≠ "") && os_Stat (cookie flags)
     then ∃ data, os_ReadFile (cookie flags) = Ok data
                  ∧ finalCookie = strings_TrimSpace (to_string data)
     else finalCookie = cookie flags).

(** A command whose items are titles: the item [broken] carries an
    error, the download of [offline] fails, the URL [bad] cannot be
    extracted, every other URL has three items. *)
Definition demo_command : Command :=
  {| Item := string;
     item_Err := λ item,
       if bool_decide (item = "broken")
       then Some (errors_New "broken item") else None;
     extractors_Extract := λ url,
       if bool_decide (url = "bad")
       then Err (errors_New "no extractor")
       else Ok ["broken"; "offline"; url];
     json_Encode := λ _, None;
     downloader_Download := λ item,
       if bool_decide (item = "offline")
       then Some (errors_New "download failed") else None;
     File := list string;
     os_Open := λ name,
       if bool_decide (name = "urls.txt")
       then Ok ["u1"] else Err (External "no such file");
     utils_ParseInputFile := λ f, f;
     os_Stat := λ name, bool_decide (name = "cookie.txt");
     os_ReadFile := λ _, Ok (of_string " k=v ");
     strings_TrimSpace := λ _, "k=v" |}.


(** The flags of a run that downloads, with a URL file and a cookie
    file. *)
Definition demo_flags : Flags :=
  {| jsonOutput := false; file := "urls.txt"; cookie := "cookie.txt" |}.

(** The catalogue of [demo_api] with a live room that checks: every room
    and token exchange for the video code [abc]. *)
Definition demo_live_api : APIClient :=
  {| GStudy := @GStudy demo_api;
     GStudySyllabus := @GStudySyllabus demo_api;
     GLiveCheck := λ _ _, Ok "abc";
     EpStudy := @EpStudy demo_api;
     EpStudySyllabus := @EpStudySyllabus demo_api;
     VideoResource := @VideoResource demo_api;
     AuthorizeKey := @AuthorizeKey demo_api;
     Headers := @Headers demo_api |}.
(** ** Byte strings *)

Section bytes_facts.
Implicit Types (s t cutset : bytes) (c : ascii).

Lemma of_to_string s : of_string (to_string s) = s.
Proof. apply list_ascii_of_string_of_list_ascii. Qed.

Lemma to_of_string (x : string) : to_string (of_string x) = x.
Proof. apply string_of_list_ascii_of_string. Qed.

Lemma in_cutset_true cutset c : in_cutset cutset c = true ↔ c ∈ cutset.
Proof.
  unfold in_cutset. rewrite existsb_exists. split.
  - intros (x & Hx & Heq). apply Ascii.eqb_eq in Heq. subst.
    by apply list_elem_of_In.
  - intros Hc. exists c. split; [by apply list_elem_of_In|apply Ascii.eqb_refl].
Qed.

Lemma in_cutset_false cutset c : in_cutset cutset c = false ↔ c ∉ cutset.
Proof.
  rewrite <-in_cutset_true. destruct (in_cutset cutset c); naive_solver.
Qed.

(** Replacing a one-byte [old] rewrites the string byte by byte. *)
Lemma replace_from_single o new s :
  replace_from [o] new 0 s
  = concat (map (λ c, if Ascii.eqb o c then new else [c]) s).
Proof.
  induction s as [|c s IH]; [done|].
  cbn [replace_from HasPrefix map concat length Nat.sub].
  rewrite IH. destruct (Ascii.eqb o c); simpl; [|done].
  by destruct s.
Qed.

Lemma TrimLeft_suffix s cutset : TrimLeft s cutset `suffix_of` s.
Proof.
  induction s as [|c s IH]; simpl; [done|].
  destruct (in_cutset cutset c); [by apply suffix_cons_r|done].
Qed.

Lemma TrimLeft_head s cutset c :
  head (TrimLeft s cutset) = Some c → c ∉ cutset.
Proof.
  induction s as [|c' s IH]; simpl; [done|].
  destruct (in_cutset cutset c') eqn:E; [done|].
  simpl. intros [= <-]. by apply in_cutset_false.
Qed.

Lemma TrimRight_prefix s cutset : TrimRight s cutset `prefix_of` s.
Proof.
  induction s as [|c s IH]; simpl; [done|].
  destruct (TrimRight s cutset) as [|c' t] eqn:E.
  - destruct (in_cutset cutset c); [apply prefix_nil|].
    apply prefix_cons, prefix_nil.
  - by apply prefix_cons.
Qed.

Lemma TrimRight_last s cutset c :
  last (TrimRight s cutset) = Some c → c ∉ cutset.
Proof.
  induction s as [|c' s IH]; simpl; [done|].
  destruct (TrimRight s cutset) as [|c'' t] eqn:E.
  - destruct (in_cutset cutset c') eqn:E'; [done|].
    simpl. intros [= <-]. by apply in_cutset_false.
  - rewrite last_cons. destruct (last (c'' :: t)) eqn:El; [by auto|].
    by apply last_None in El.
Qed.

Lemma prefix_head s t c : s `prefix_of` t → head s = Some c → head t = Some c.
Proof. intros [k ->]. by destruct s. Qed.

Lemma TrimRight_head s cutset c :
  head (TrimRight s cutset) = Some c → head s = Some c.
Proof. apply prefix_head, TrimRight_prefix. Qed.

Lemma prefix_elem s t c : s `prefix_of` t → c ∈ s → c ∈ t.
Proof. intros [k ->] ?. apply elem_of_app. by left. Qed.

Lemma suffix_elem s t c : s `suffix_of` t → c ∈ s → c ∈ t.
Proof. intros [k ->] ?. apply elem_of_app. by right. Qed.

Lemma suffix_last s t c : s `suffix_of` t → last s = Some c → last t = Some c.
Proof. intros [k ->] Hc. by rewrite last_app, Hc. Qed.

Lemma Trim_elem s cutset c : c ∈ Trim s cutset → c ∈ s.
Proof.
  intros Hc. eapply prefix_elem; [apply TrimRight_prefix|].
  eapply suffix_elem; [apply TrimLeft_suffix|done].
Qed.

Lemma Trim_head s cutset c : head (Trim s cutset) = Some c → c ∉ cutset.
Proof. apply TrimLeft_head. Qed.

Lemma Trim_last s cutset c : last (Trim s cutset) = Some c → c ∉ cutset.
Proof.
  intros Hc. eapply TrimRight_last, suffix_last; [apply TrimLeft_suffix|done].
Qed.

End bytes_facts.

(** ** Sanitizer *)

Section sanitizer_facts.
Context `{MapRange}.

Lemma replace_loop (entries : list (string * string)) (s : bytes) :
  Forall (λ e, ∃ o, e = (String o "", "-")) entries →
  foldl (λ result '(old, new),
           ReplaceAll result (of_string old) (of_string new))
        s entries
  = map (λ c, if in_cutset (olds entries) c then "-"%char else c) s.
Proof.
  intros Hall. revert s.
  induction Hall as [|e es [o ->] _ IH]; intros s.
  - simpl. symmetry. apply map_id.
  - cbn [foldl]. rewrite IH. cbn [of_string list_ascii_of_string ReplaceAll].
    rewrite replace_from_single.
    induction s as [|c s IHs]; [done|].
    cbn [map concat]. rewrite map_app, IHs. f_equal.
    unfold olds. cbn [map concat fst of_string list_ascii_of_string app].
    unfold in_cutset at 3. cbn [existsb].
    rewrite (Ascii.eqb_sym c o).
    destruct (Ascii.eqb o c); cbn [map orb app]; [|done].
    by destruct (in_cutset _ "-"%char).
Qed.

Lemma map_to_list_replacements :
  map_to_list replacements
  ≡ₚ [ ("/", "-"); ("\", "-"); (":", "-"); ("*", "-"); ("?", "-");
       (String "034" "", "-"); ("<", "-"); (">", "-"); ("|", "-") ].
Proof.
  unfold replacements. apply map_to_list_to_map.
  apply (bool_decide_unpack _). by vm_compute.
Qed.

Lemma range_replacements :
  range replacements
  ≡ₚ [ ("/", "-"); ("\", "-"); (":", "-"); ("*", "-"); ("?", "-");
       (String "034" "", "-"); ("<", "-"); (">", "-"); ("|", "-") ].
Proof. rewrite range_perm. apply map_to_list_replacements. Qed.

Lemma olds_range c : in_cutset (olds (range replacements)) c = in_cutset banned c.
Proof.
  apply eq_true_iff_eq. rewrite !in_cutset_true.
  unfold olds. rewrite range_replacements. done.
Qed.

Lemma replacement_phase (name : bytes) :
  foldl (λ result '(old, new),
           ReplaceAll result (of_string old) (of_string new))
        name (range replacements)
  = dash_banned name.
Proof.
  rewrite replace_loop.
  - apply map_ext. intros c. by rewrite olds_range.
  - rewrite range_replacements. repeat (constructor; [by eexists|]). constructor.
Qed.

(** The sanitizer in closed form. *)
Lemma sanitizeFileName_eq (name : string) :
  sanitizeFileName name
  = to_string (trim_and_truncate (dash_banned (of_string name))).
Proof. unfold sanitizeFileName. by rewrite replacement_phase. Qed.

End sanitizer_facts.

Lemma dash_banned_clean (s : bytes) c : c ∈ banned → c ∉ dash_banned s.
Proof.
  intros Hc Hin. unfold dash_banned in Hin.
  apply list_elem_of_In, in_map_iff in Hin as (x & Hx & _).
  destruct (in_cutset banned x) eqn:E.
  - subst c. vm_compute in Hc. set_solver.
  - subst x. apply in_cutset_false in E. done.
Qed.

Lemma trim_and_truncate_elem (s : bytes) c : c ∈ trim_and_truncate s → c ∈ s.
Proof.
  unfold trim_and_truncate. intros Hc. eapply Trim_elem.
  destruct (100 <? _)%nat; [|done].
  eapply prefix_elem; [apply prefix_take|].
  eapply prefix_elem; [apply TrimRight_prefix|]. done.
Qed.

Lemma trim_and_truncate_length (s : bytes) :
  (length (trim_and_truncate s) ≤ 100)%nat.
Proof.
  unfold trim_and_truncate, len, slice_to.
  destruct (100 <? _)%nat eqn:E.
  - etrans; [apply prefix_length, TrimRight_prefix|].
    rewrite length_take. lia.
  - apply Nat.ltb_ge in E. done.
Qed.

Lemma trim_and_truncate_head (s : bytes) c :
  head (trim_and_truncate s) = Some c → c ∉ of_string " .".
Proof.
  unfold trim_and_truncate, slice_to. destruct (100 <? _)%nat.
  - intros Hc. apply TrimRight_head in Hc.
    eapply Trim_head, prefix_head; [apply prefix_take|done].
  - apply Trim_head.
Qed.

Lemma trim_and_truncate_last (s : bytes) c :
  last (trim_and_truncate s) = Some c → c ∉ of_string " .".
Proof.
  unfold trim_and_truncate. destruct (100 <? _)%nat.
  - apply TrimRight_last.
  - apply Trim_last.
Qed.

(** C4.  For every input and every iteration order of the replacement
    map, the output of [sanitizeFileName] contains none of the nine banned
    characters, is at most 100 bytes (hence at most 100 characters) long,
    and neither starts nor ends with a space or a dot; this includes the
    outputs that were truncated to 100. *)
Theorem sanitizeFileName_safe `{MapRange} (name : string) :
  let out := of_string (sanitizeFileName name) in
  Forall (λ c, c ∉ out) banned
  ∧ (len out ≤ 100)%nat
  ∧ head out ≠ Some " "%char ∧ head out ≠ Some "."%char
  ∧ last out ≠ Some " "%char ∧ last out ≠ Some "."%char.
Proof.
  intros out. subst out. rewrite sanitizeFileName_eq, of_to_string.
  split; [|split; [|repeat split]].
  - apply Forall_forall. intros c Hc Hin.
    by eapply dash_banned_clean, trim_and_truncate_elem.
  - apply trim_and_truncate_length.
  - intros Hc. apply trim_and_truncate_head in Hc. vm_compute in Hc. set_solver.
  - intros Hc. apply trim_and_truncate_head in Hc. vm_compute in Hc. set_solver.
  - intros Hc. apply trim_and_truncate_last in Hc. vm_compute in Hc. set_solver.
  - intros Hc. apply trim_and_truncate_last in Hc. vm_compute in Hc. set_solver.
Qed.

(** C5.  [sanitizeFileName] is deterministic: two runs, each with its own
    iteration order of the replacement map, return the same output for the
    same input. *)
Theorem sanitizeFileName_deterministic (R1 R2 : MapRange) (name : string) :
  @sanitizeFileName R1 name = @sanitizeFileName R2 name.
Proof. by rewrite !sanitizeFileName_eq. Qed.


(** ** Locator *)

Section regexp_facts.
Implicit Types (s t u : bytes) (p : ascii → bool).

Lemma HasPrefix_spec s t : HasPrefix s t = true ↔ ∃ rest, s = t ++ rest.
Proof.
  revert s. induction t as [|c t IH]; intros s; simpl.
  - split; [intros _; by exists s|done].
  - destruct s as [|c' s]; [split; [done|by intros [? ?]]|].
    rewrite andb_true_iff, Ascii.eqb_eq, IH. split.
    + intros [-> [rest ->]]. eauto.
    + intros [rest [= -> ->]]. eauto.
Qed.

Lemma take_drop_while p s : take_while p s ++ drop_while p s = s.
Proof. induction s as [|c s IH]; simpl; [done|]. destruct (p c); simpl; congruence. Qed.

Lemma take_while_nil p s : take_while p s = [] → drop_while p s = s.
Proof. destruct s as [|c s]; simpl; [done|]. by destruct (p c). Qed.

Lemma take_while_Forall p s : Forall (λ c, p c = true) (take_while p s).
Proof.
  induction s as [|c s IH]; simpl; [constructor|].
  destruct (p c) eqn:E; by constructor.
Qed.

Lemma drop_while_head p s c : head (drop_while p s) = Some c → p c = false.
Proof.
  induction s as [|c' s IH]; simpl; [done|].
  destruct (p c') eqn:E; [done|]. by intros [= <-].
Qed.

Lemma take_while_app p s t :
  Forall (λ c, p c = true) s → (∀ c, head t = Some c → p c = false) →
  take_while p (s ++ t) = s.
Proof.
  intros Hs Ht. induction Hs as [|c s Hc _ IH]; simpl.
  - destruct t as [|c t]; simpl; [done|]. by rewrite (Ht c).
  - by rewrite Hc, IH.
Qed.

(** Followed by a continuation that accepts anything, a greedy class
    takes the whole run. *)
Lemma plus_greedy_total {X} p s (k : bytes → option X) :
  (∀ rest, is_Some (k rest)) →
  plus_greedy p s k
  = match take_while p s with
    | [] => None
    | _ => k (drop_while p s)
    end.
Proof.
  intros Hk. induction s as [|c s IH]; simpl; [done|].
  destruct (p c); [|done]. rewrite IH.
  destruct (take_while p s) eqn:E.
  - by rewrite (take_while_nil _ _ E).
  - by destruct (Hk (drop_while p s)) as [x ->].
Qed.

Lemma take_while_length p s :
  take (length s - length (drop_while p s)) s = take_while p s.
Proof.
  rewrite <-(take_drop_while p s) at 1 3.
  rewrite length_app.
  replace (_ + _ - _)%nat with (length (take_while p s)) by lia.
  by rewrite take_app_length.
Qed.

(** The digit group at the end of both patterns. *)
Lemma plus_digits s caps (whole : bytes → bytes) :
  plus_greedy is_digit s
    (λ rest, Some (whole rest :: caps ++ [take (length s - length rest) s]))
  = match take_while is_digit s with
    | [] => None
    | N => Some (whole (drop_while is_digit s) :: caps ++ [N])
    end.
Proof.
  rewrite plus_greedy_total by eauto.
  rewrite take_while_length. by destruct (take_while is_digit s).
Qed.

Lemma HasPrefix_app s t1 t2 :
  HasPrefix s (t1 ++ t2) = HasPrefix s t1 && HasPrefix (drop (length t1) s) t2.
Proof.
  revert s. induction t1 as [|c t1 IH]; intros s; simpl; [done|].
  destruct s as [|c' s]; [by destruct t2|]. simpl. by rewrite IH, andb_assoc.
Qed.

Lemma match_here_path s :
  match_here pathPattern s
  = match key_digits "/course/" s with
    | Some N => Some [whole_match "/course/" s; N]
    | None => None
    end.
Proof.
  unfold match_here, pathPattern, key_digits, whole_match.
  cbn [run]. destruct (HasPrefix s (of_string "/course/")); [|done].
  rewrite (plus_digits _ [] (λ rest, take (length s - length rest) s)).
  by destruct (take_while is_digit _).
Qed.

Lemma of_string_app (k1 k2 : string) :
  of_string (k1 +:+ k2) = of_string k1 ++ of_string k2.
Proof. induction k1 as [|c k1 IH]; simpl; [done|]. by rewrite <-IH. Qed.

Lemma key_digits_eq (k1 k2 : string) s :
  key_digits (k1 +:+ k2) s
  = if HasPrefix s (of_string k1)
    then key_digits k2 (drop (length (of_string k1)) s)
    else None.
Proof.
  unfold key_digits. rewrite of_string_app.
  rewrite HasPrefix_app, length_app, <-drop_drop.
  by destruct (HasPrefix s (of_string k1)).
Qed.

Lemma match_here_courseID s :
  match_here courseIDPattern s
  = match key_digits "course_id=" s with
    | Some N => Some [whole_match "course_id=" s; N]
    | None =>
        match key_digits "courseId=" s with
        | Some N => Some [whole_match "courseId=" s; N]
        | None => None
        end
    end.
Proof.
  change "course_id=" with ("course_id" +:+ "=").
  change "courseId=" with ("courseId" +:+ "=").
  rewrite !key_digits_eq.
  unfold match_here, courseIDPattern, whole_match. cbn [run].
  rewrite !(plus_digits _ [] (λ rest, take (length s - length rest) s)).
  unfold key_digits. rewrite !of_string_app, !length_app, !drop_drop.
  destruct (HasPrefix s (of_string "course_id")),
    (HasPrefix s (of_string "courseId"));
    repeat case_match; simplify_eq; done.
Qed.

Lemma key_digits_Some key s N :
  key_digits key s = Some N
  ↔ ∃ post, s = of_string key ++ N ++ post ∧ digit_run N post.
Proof.
  unfold key_digits. split.
  - destruct (HasPrefix s (of_string key)) eqn:E; [|done].
    apply HasPrefix_spec in E as [rest ->]. rewrite drop_app_length.
    pose proof (take_drop_while is_digit rest) as Hrest.
    pose proof (take_while_Forall is_digit rest) as Hall.
    destruct (take_while is_digit rest) as [|c N'] eqn:EN; [done|].
    intros [= <-]. exists (drop_while is_digit rest).
    rewrite Hrest. repeat split; [done|done|apply drop_while_head].
  - intros (post & -> & Hne & Hall & Hpost).
    assert (HasPrefix (of_string key ++ N ++ post) (of_string key) = true) as ->
      by (apply HasPrefix_spec; eauto).
    rewrite drop_app_length, take_while_app by done.
    by destruct N.
Qed.

Lemma occurs_here keys u N :
  occurs keys u [] N ↔ ∃ key, key ∈ keys ∧ key_digits key u = Some N.
Proof.
  unfold occurs. setoid_rewrite key_digits_Some. naive_solver.
Qed.

Lemma occurs_cons keys c u pre N :
  occurs keys (c :: u) (c :: pre) N ↔ occurs keys u pre N.
Proof.
  unfold occurs. split; intros (key & post & ? & Hu & ?); exists key, post.
  - by simplify_eq/=.
  - by rewrite Hu.
Qed.

Lemma occurs_head keys u c pre N :
  occurs keys u (c :: pre) N → ∃ u', u = c :: u'.
Proof. intros (key & post & _ & -> & _). simpl. eauto. Qed.

End regexp_facts.

(** Leftmost search with a pattern that matches, at the head of a string,
    one of [keys] followed by digits and captures the digits. *)
Section first_match.
Variables (pat : re) (keys : list string).
Hypothesis pat_Some : ∀ s m,
  match_here pat s = Some m →
  ∃ key N, key ∈ keys ∧ key_digits key s = Some N ∧ m = [whole_match key s; N].
Hypothesis pat_None : ∀ s key,
  match_here pat s = None → key ∈ keys → key_digits key s = None.
Hypothesis keys_apart : ∀ k1 k2 s,
  k1 ∈ keys → k2 ∈ keys →
  HasPrefix s (of_string k1) = true → HasPrefix s (of_string k2) = true →
  k1 = k2.

Lemma find_none (u : bytes) :
  no_occurrence keys u → FindStringSubmatch pat u = [].
Proof using pat_Some.
  induction u as [|c u IH]; intros Hno; cbn [FindStringSubmatch].
  - destruct (match_here pat []) as [m|] eqn:E; [|done].
    apply pat_Some in E as (key & N & Hkey & HN & _).
    destruct (Hno [] N). apply occurs_here. eauto.
  - destruct (match_here pat (c :: u)) as [m|] eqn:E.
    + apply pat_Some in E as (key & N & Hkey & HN & _).
      destruct (Hno [] N). apply occurs_here. eauto.
    + apply IH. intros pre N Hocc. apply (Hno (c :: pre) N).
      by apply occurs_cons.
Qed.

Lemma find_first (u N : bytes) :
  first_occurs keys u N → ∃ whole, FindStringSubmatch pat u = [whole; N].
Proof using pat_Some pat_None keys_apart.
  intros (pre & Hocc & Hleft). revert u Hocc Hleft.
  induction pre as [|c pre IH]; intros u Hocc Hleft.
  - apply occurs_here in Hocc as (key & Hkey & HN).
    assert (∃ m, match_here pat u = Some m) as [m Hm].
    { destruct (match_here pat u) eqn:E; [eauto|].
      rewrite (pat_None _ _ E Hkey) in HN. done. }
    assert (FindStringSubmatch pat u = m) as ->.
    { destruct u; cbn [FindStringSubmatch]; by rewrite Hm. }
    apply pat_Some in Hm as (key' & N' & Hkey' & HN' & ->).
    assert (key' = key) as ->.
    { unfold key_digits in HN, HN'.
      destruct (HasPrefix u (of_string key)) eqn:E1; [|done].
      destruct (HasPrefix u (of_string key')) eqn:E2; [|done].
      symmetry. by eapply keys_apart. }
    rewrite HN in HN'. simplify_eq. eauto.
  - destruct (occurs_head _ _ _ _ _ Hocc) as [u' ->].
    apply occurs_cons in Hocc. cbn [FindStringSubmatch].
    destruct (match_here pat (c :: u')) as [m|] eqn:E.
    + apply pat_Some in E as (key & N' & Hkey & HN & _).
      destruct (Hleft [] N'); [simpl; lia|]. apply occurs_here. eauto.
    + apply IH; [done|]. intros pre' N' Hlen Hocc'.
      apply (Hleft (c :: pre') N'); [simpl; lia|]. by apply occurs_cons.
Qed.

End first_match.

Lemma query_keys_apart k1 k2 (s : bytes) :
  k1 ∈ query_keys → k2 ∈ query_keys →
  HasPrefix s (of_string k1) = true → HasPrefix s (of_string k2) = true →
  k1 = k2.
Proof.
  unfold query_keys. rewrite !elem_of_cons, !elem_of_nil.
  intros [->|[->|[]]] [->|[->|[]]] [r1 ->]%HasPrefix_spec [r2 Hr]%HasPrefix_spec;
    done.
Qed.

Lemma courseIDPattern_Some (s : bytes) m :
  match_here courseIDPattern s = Some m →
  ∃ key N, key ∈ query_keys ∧ key_digits key s = Some N
           ∧ m = [whole_match key s; N].
Proof.
  rewrite match_here_courseID. unfold query_keys. intros Hm.
  destruct (key_digits "course_id=" s) as [N|] eqn:E1.
  { exists "course_id=", N. split; [set_solver|]. by simplify_eq. }
  destruct (key_digits "courseId=" s) as [N|] eqn:E2; [|done].
  exists "courseId=", N. split; [set_solver|]. by simplify_eq.
Qed.

Lemma courseIDPattern_None (s : bytes) key :
  match_here courseIDPattern s = None → key ∈ query_keys →
  key_digits key s = None.
Proof.
  rewrite match_here_courseID. unfold query_keys.
  rewrite !elem_of_cons, elem_of_nil. intros Hm [->|[->|[]]];
    repeat case_match; simplify_eq; done.
Qed.

Lemma pathPattern_Some (s : bytes) m :
  match_here pathPattern s = Some m →
  ∃ key N, key ∈ path_keys ∧ key_digits key s = Some N
           ∧ m = [whole_match key s; N].
Proof.
  rewrite match_here_path. intros Hm.
  destruct (key_digits "/course/" s) as [N|] eqn:E1; [|done].
  exists "/course/", N. split; [set_solver|]. by simplify_eq.
Qed.

Lemma pathPattern_None (s : bytes) key :
  match_here pathPattern s = None → key ∈ path_keys →
  key_digits key s = None.
Proof.
  rewrite match_here_path. unfold path_keys.
  rewrite list_elem_of_singleton. intros Hm ->. by case_match.
Qed.

Lemma path_keys_apart k1 k2 (s : bytes) :
  k1 ∈ path_keys → k2 ∈ path_keys →
  HasPrefix s (of_string k1) = true → HasPrefix s (of_string k2) = true →
  k1 = k2.
Proof. unfold path_keys. rewrite !list_elem_of_singleton. by intros -> ->. Qed.

(** C6, as the code has it.  [extractCourseID] returns the digit run that
    follows the leftmost [course_id=] or [courseId=] that a digit follows;
    when the URL has no such place, the digit run that follows the leftmost
    [/course/] that a digit follows (so a query parameter goes before a
    path segment); and when it has neither, the not-found error.  A digit
    run is maximal: it ends at the first byte that is not a digit. *)
Theorem extractCourseID_leftmost (URL : string) :
  (∀ N, first_occurs query_keys (of_string URL) N →
        extractCourseID URL = Ok (to_string N))
  ∧ (∀ N, no_occurrence query_keys (of_string URL) →
          first_occurs path_keys (of_string URL) N →
          extractCourseID URL = Ok (to_string N))
  ∧ (no_occurrence query_keys (of_string URL) →
     no_occurrence path_keys (of_string URL) →
     extractCourseID URL = Err (errors_New "course ID not found in URL")).
Proof.
  unfold extractCourseID. repeat split.
  - intros N HN.
    destruct (find_first courseIDPattern query_keys courseIDPattern_Some
                courseIDPattern_None query_keys_apart _ _ HN) as [w ->].
    done.
  - intros N Hno HN.
    rewrite (find_none courseIDPattern query_keys courseIDPattern_Some _ Hno).
    destruct (find_first pathPattern path_keys pathPattern_Some
                pathPattern_None path_keys_apart _ _ HN) as [w ->].
    done.
  - intros Hno1 Hno2.
    rewrite (find_none courseIDPattern query_keys courseIDPattern_Some _ Hno1).
    by rewrite (find_none pathPattern path_keys pathPattern_Some _ Hno2).
Qed.

Lemma occurs_at keys (u pre N : bytes) :
  occurs keys u pre N →
  ∃ key, key ∈ keys ∧ key_digits key (drop (length pre) u) = Some N.
Proof.
  intros (key & post & Hkey & -> & Hrun). exists key. split; [done|].
  rewrite drop_app_length. apply key_digits_Some. eauto.
Qed.

Lemma no_key_before_sound keys (u pre N : bytes) n :
  no_key_before keys u n = true → (length pre < n)%nat → ¬ occurs keys u pre N.
Proof.
  unfold no_key_before, no_key_at. rewrite forallb_forall.
  intros Hall Hlt (key & Hkey & HN)%occurs_at.
  specialize (Hall (length pre)). rewrite forallb_forall in Hall.
  assert (In (length pre) (seq 0 n)) as Hin by (apply in_seq; lia).
  specialize (Hall Hin key). rewrite <-list_elem_of_In in Hall.
  apply Hall, bool_decide_eq_true in Hkey. congruence.
Qed.

Lemma no_occurrence_check keys (u : bytes) :
  no_key_before keys u (S (length u)) = true → no_occurrence keys u.
Proof.
  intros Hall pre N Hocc.
  refine (no_key_before_sound _ _ _ _ _ Hall _ Hocc).
  destruct Hocc as (key & post & _ & -> & _). rewrite length_app. lia.
Qed.

Lemma first_occurs_check keys (u pre N : bytes) :
  occurs keys u pre N → no_key_before keys u (length pre) = true →
  first_occurs keys u N.
Proof.
  intros Hocc Hall. exists pre. split; [done|].
  intros pre' N' Hlt. by eapply no_key_before_sound.
Qed.

(** The three cases on URLs: a query parameter behind a path segment, a
    path segment alone, and a URL whose parameters carry no digit. *)
Lemma extractCourseID_leftmost_witness :
  extractCourseID "https://gaodun.com/course/7?x=1&courseId=17244&y=2"
  = Ok "17244"
  ∧ extractCourseID "https://gaodun.com/course/17244?page=2" = Ok "17244"
  ∧ extractCourseID "https://gaodun.com/course/?course_id=&courseId=x"
    = Err (errors_New "course ID not found in URL").
Proof.
  split; [|split].
  - apply (proj1 (extractCourseID_leftmost _) (of_string "17244")).
    apply (first_occurs_check _ _
             (of_string "https://gaodun.com/course/7?x=1&")).
    + exists "courseId=", (of_string "&y=2").
      split; [by right; left|]. split; [reflexivity|].
      split; [discriminate|]. split.
      * repeat constructor.
      * intros c [= <-]. reflexivity.
    + vm_compute. reflexivity.
  - apply (proj1 (proj2 (extractCourseID_leftmost _)) (of_string "17244")).
    + apply no_occurrence_check. vm_compute. reflexivity.
    + apply (first_occurs_check _ _ (of_string "https://gaodun.com")).
      * exists "/course/", (of_string "?page=2").
        split; [by left|]. split; [reflexivity|].
        split; [discriminate|]. split.
        -- repeat constructor.
        -- intros c [= <-]. reflexivity.
      * vm_compute. reflexivity.
  - apply (proj2 (proj2 (extractCourseID_leftmost _)));
      apply no_occurrence_check; vm_compute; reflexivity.
Defined.

(** C6 as stated fails: this URL contains the query parameter
    [courseId=2], and [extractCourseID] returns [1], the value of the
    parameter [course_id] that stands before it. *)
Lemma extractCourseID_second_parameter :
  occurs query_keys
    (of_string "https://gaodun.com/course?course_id=1&courseId=2")
    (of_string "https://gaodun.com/course?course_id=1&") (of_string "2")
  ∧ extractCourseID "https://gaodun.com/course?course_id=1&courseId=2"
    ≠ Ok "2".
Proof.
  split.
  - exists "courseId=", []. split; [by right; left|]. split; [reflexivity|].
    split; [discriminate|]. split; [repeat constructor|intros c [=]].
  - vm_compute. discriminate.
Qed.

(** ** Joined goroutines *)

Section scheduler_facts.
Context {A : Type}.
Implicit Types (qs : list (list A)) (out : list A).

Lemma concat_all_nil qs : Forall (λ q, q = []) qs → concat qs = [].
Proof. induction 1 as [|q qs -> _ IH]; simpl; done. Qed.

Lemma concat_step qs i x (q : list A) :
  qs !! i = Some (x :: q) → concat qs ≡ₚ x :: concat (<[i := q]> qs).
Proof.
  intros Hi. rewrite insert_take_drop by (by eapply lookup_lt_Some).
  rewrite <-(take_drop_middle qs i (x :: q)) at 1 by done.
  rewrite !concat_app. simpl. symmetry. apply Permutation_middle.
Qed.

(** An interleaving neither loses nor invents an append. *)
Lemma interleaves_perm qs out : interleaves qs out → out ≡ₚ concat qs.
Proof.
  induction 1 as [qs Hnil|qs i x q out Hi _ IH].
  - by rewrite concat_all_nil.
  - by rewrite (concat_step qs i x q), IH.
Qed.

Lemma interleaves_skip qs out : interleaves qs out → interleaves ([] :: qs) out.
Proof.
  induction 1 as [qs Hnil|qs i x q out Hi _ IH].
  - apply interleaves_done. by constructor.
  - by apply (interleaves_step _ (S i) x q).
Qed.

(** Running the goroutines one after the other is an interleaving. *)
Lemma interleaves_concat qs : interleaves qs (concat qs).
Proof.
  induction qs as [|q qs IH]; simpl.
  - apply interleaves_done. constructor.
  - induction q as [|x q IHq]; simpl.
    + by apply interleaves_skip.
    + by apply (interleaves_step _ 0%nat x q).
Qed.

End scheduler_facts.

Lemma concat_perm {A} (l1 l2 : list (list A)) :
  l1 ≡ₚ l2 → concat l1 ≡ₚ concat l2.
Proof.
  induction 1 as [|x l1 l2 _ IH|x y l|l1 l2 l3 _ IH1 _ IH2]; simpl.
  - done.
  - by rewrite IH.
  - by rewrite !(assoc (++)), (comm (++) y x).
  - by rewrite IH1.
Qed.

(** The sequential scheduler, one possible run. *)
#[local] Instance sequential : Scheduler :=
  {| join := λ A qs, concat qs; join_interleaves := λ A qs, interleaves_concat qs |}.

Section gather_facts.
Context `{Scheduler} {A : Type}.
Implicit Types (batches : list (list (list A))).

(** Count-exactness and order-independence of the aggregation: the joined
    slice holds the batches of all goroutines, in some order. *)
Lemma gather_perm batches : gather batches ≡ₚ concat (concat batches).
Proof. unfold gather. apply concat_perm, interleaves_perm, join_interleaves. Qed.

Lemma gather_length batches :
  length (gather batches) = length (concat (concat batches)).
Proof. by rewrite gather_perm. Qed.

Lemma gather_nil batches :
  Forall (λ goroutine, concat goroutine = []) batches → gather batches = [].
Proof.
  intros Hall. apply Permutation_nil_r. rewrite gather_perm.
  induction Hall as [|g gs Hg _ IH]; simpl; [done|].
  by rewrite concat_app, Hg, IH.
Qed.

End gather_facts.

(** ** Resource resolver *)

Section resolver_facts.
Context `{APIClient, MapRange, Scheduler, Library}.

Lemma elem_of_range {V} (m : gmap string V) k v :
  (k, v) ∈ range m ↔ m !! k = Some v.
Proof. by rewrite range_perm, elem_of_map_to_list. Qed.

(** A pass of the quality loop either leaves the streams alone or adds
    the stream of a usable entry. *)
Lemma quality_step_lookup resource streams quality qualityInfo id st :
  quality_step resource streams (quality, qualityInfo) !! id = Some st →
  streams !! id = Some st
  ∨ ∃ urls, usable qualityInfo urls
            ∧ id = Resource.VideoID resource +:+ "_" +:+ quality
            ∧ Stream.Parts st = map ts_part urls.
Proof.
  unfold quality_step, usable.
  destruct (bool_decide (VideoQuality.Available qualityInfo ≠ 1)) eqn:E1;
    [by left|].
  destruct (bool_decide (VideoQuality.Path qualityInfo = "")) eqn:E2;
    [by left|].
  apply bool_decide_eq_false in E1, E2. cbn [orb].
  destruct (utils_M3u8URLsWithHeaders _ _) as [urls|e] eqn:E3; [|by left].
  rewrite lookup_insert. case_decide as Hid.
  - intros [= <-]. right. exists urls. repeat split; [|done..].
    by destruct (decide (VideoQuality.Available qualityInfo = 1)).
  - by left.
Qed.

Lemma quality_loop_lookup resource entries streams id st :
  foldl (quality_step resource) streams entries !! id = Some st →
  streams !! id = Some st
  ∨ ∃ quality qualityInfo urls,
      (quality, qualityInfo) ∈ entries
      ∧ usable qualityInfo urls
      ∧ id = Resource.VideoID resource +:+ "_" +:+ quality
      ∧ Stream.Parts st = map ts_part urls.
Proof.
  revert streams. induction entries as [|[quality qualityInfo] entries IH];
    intros streams; cbn [foldl]; [by left|].
  intros [Hst|(q & qi & urls & Hin & ?)]%IH.
  - apply quality_step_lookup in Hst as [?|(urls & ? & ? & ?)]; [by left|].
    right. exists quality, qualityInfo, urls. split; [by left|done].
  - right. exists q, qi, urls. split; [by right|done].
Qed.

Lemma quality_loop_skip resource entries streams :
  (∀ quality qualityInfo, (quality, qualityInfo) ∈ entries →
     VideoQuality.Available qualityInfo ≠ 1
     ∨ VideoQuality.Path qualityInfo = ""
     ∨ is_Ok (utils_M3u8URLsWithHeaders (VideoQuality.Path qualityInfo) Headers)
       = false) →
  foldl (quality_step resource) streams entries = streams.
Proof.
  revert streams. induction entries as [|[quality qualityInfo] entries IH];
    intros streams Hall; cbn [foldl]; [done|].
  rewrite IH by (intros q qi Hin; apply (Hall q qi); by right).
  unfold quality_step.
  destruct (Hall quality qualityInfo) as [Ha|[Hp|He]]; [by left|..].
  - by rewrite (bool_decide_eq_true_2 _ Ha).
  - rewrite (bool_decide_eq_true_2 _ Hp). by rewrite orb_true_r.
  - destruct (_ || _); [done|].
    by destruct (utils_M3u8URLsWithHeaders _ _).
Qed.

(** C2, as the code has it.  When [processVideoResource] succeeds it
    returns a descriptor, never [(nil, nil)]; the descriptor contains at
    least one Stream; every Stream comes from one usable quality of the
    fetched list and has exactly one Part per segment URL of that
    quality's manifest expansion.  So every Stream, and with it at least
    one, has a Part as soon as no expansion succeeds with an empty segment
    list. *)
Theorem processVideoResource_streams (resource : Resource.t)
    (baseDir : string) (r : option Data.t) :
  processVideoResource resource baseDir = Ok r → video_descriptor resource r.
Proof.
  unfold processVideoResource, video_descriptor.
  destruct (VideoResource _ _ _) as [videoRes|e] eqn:Hfetch; [|done].
  case_bool_decide as Hsize; [done|].
  intros [= <-]. eexists _, videoRes. split; [done|]. split; [done|].
  cbn [Data.Streams].
  assert (∀ id st,
    foldl (quality_step resource) ∅ (range (VideoResource.List videoRes))
      !! id = Some st →
    ∃ quality qualityInfo urls,
      VideoResource.List videoRes !! quality = Some qualityInfo
      ∧ usable qualityInfo urls
      ∧ id = Resource.VideoID resource +:+ "_" +:+ quality
      ∧ Stream.Parts st = map ts_part urls) as Hfrom.
  { intros id st [Hst|(q & qi & urls & Hin & ?)]%quality_loop_lookup;
      [by rewrite lookup_empty in Hst|].
    exists q, qi, urls. split; [by apply elem_of_range|done]. }
  split; [|split; [done|]].
  - intros Hempty. by rewrite Hempty, map_size_empty in Hsize.
  - intros Hfull id st (q & qi & urls & _ & (_ & _ & Hurls) & _ & ->)%Hfrom.
    apply Hfull in Hurls. by destruct urls.
Qed.

(** C3.  When the quality list fetched for a video resource has no usable
    entry (every quality is unavailable, or has an empty manifest path, or
    fails manifest expansion), [processVideoResource] returns the error
    [no available video streams], and so no descriptor. *)
Theorem processVideoResource_no_streams (resource : Resource.t)
    (baseDir : string) (videoRes : VideoResource.t) :
  VideoResource (Resource.VideoID resource) "SD" 0 = Ok videoRes →
  (∀ quality qualityInfo,
     VideoResource.List videoRes !! quality = Some qualityInfo →
     VideoQuality.Available qualityInfo ≠ 1
     ∨ VideoQuality.Path qualityInfo = ""
     ∨ is_Ok (utils_M3u8URLsWithHeaders (VideoQuality.Path qualityInfo) Headers)
       = false) →
  processVideoResource resource baseDir
  = Err (errors_New "no available video streams").
Proof.
  intros Hfetch Hnone. unfold processVideoResource. rewrite Hfetch.
  rewrite quality_loop_skip.
  - by rewrite map_size_empty.
  - intros q qi Hin%elem_of_range. by apply (Hnone q qi).
Qed.

(** The descriptors one resource adds to the result of
    [extractResources]. *)
Lemma extractResources_length (resources : list Resource.t) (baseDir : string) :
  ∃ allData, extractResources resources baseDir = Ok allData
             ∧ (length allData ≤ length resources)%nat.
Proof.
  unfold extractResources. eexists. split; [done|].
  rewrite gather_length.
  induction resources as [|res resources IH]; simpl; [done|].
  rewrite concat_app, length_app.
  destruct (processResource res baseDir) as [[data|]|e]; simpl; lia.
Qed.

Lemma extractResources_none (resource : Resource.t) (baseDir : string) :
  processResource resource baseDir = Ok None →
  extractResources [resource] baseDir = Ok [].
Proof.
  intros Hnone. unfold extractResources. simpl. rewrite Hnone.
  f_equal. apply gather_nil. by repeat constructor.
Qed.

(** C8.  A resource yields at most one descriptor: the list that
    [extractResources] returns for it has at most one element.  A resource
    whose discriminator is none of [live_new], [video], [lecture_note]
    yields no descriptor and no error. *)
Theorem processResource_at_most_one (resource : Resource.t) (baseDir : string) :
  (∃ allData, extractResources [resource] baseDir = Ok allData
              ∧ (length allData ≤ 1)%nat)
  ∧ (Resource.Discriminator resource ≠ "live_new" →
     Resource.Discriminator resource ≠ "video" →
     Resource.Discriminator resource ≠ "lecture_note" →
     processResource resource baseDir = Ok None
     ∧ extractResources [resource] baseDir = Ok []).
Proof.
  split; [apply extractResources_length|].
  intros Hlive Hvideo Hnote.
  assert (processResource resource baseDir = Ok None) as Hnone.
  { unfold processResource.
    by rewrite !bool_decide_eq_false_2. }
  split; [done|by apply extractResources_none].
Qed.

(** C9.  A [live_new] resource whose deep link parses into a room ID and
    a token but whose token exchange fails yields neither a descriptor nor
    an error, and adds nothing to the result of [extractResources]. *)
Theorem processResource_live_check_fails (resource : Resource.t)
    (baseDir roomID token : string) (err : error) :
  Resource.Discriminator resource = "live_new" →
  extractRoomIDAndToken (Resource.LiveUrlPlayBackApp resource)
  = Ok (roomID, token) →
  GLiveCheck roomID token = Err err →
  processResource resource baseDir = Ok None
  ∧ extractResources [resource] baseDir = Ok [].
Proof.
  intros Hdisc Hlink Hcheck.
  assert (processResource resource baseDir = Ok None) as Hnone.
  { unfold processResource.
    by rewrite Hdisc, bool_decide_eq_true_2, Hlink, Hcheck. }
  split; [done|by apply extractResources_none].
Qed.

(** ** Schema classifier *)

(** C7.  [isGStudyCourse] returns an error when the fetched gradation
    list is empty; otherwise it looks at the first gradation only and
    answers schema A exactly when that gradation has a schema-A syllabus
    root and a nil schema-B syllabus list, schema B in every other case. *)
Theorem isGStudyCourse_first_gradation (courseID : string) :
  (GStudy courseID = Ok [] →
   isGStudyCourse courseID = Err (errors_New "no G-Study course found"))
  ∧ (∀ g rest, GStudy courseID = Ok (g :: rest) →
       isGStudyCourse courseID = Ok (schema_A g)).
Proof.
  unfold isGStudyCourse, schema_A. split.
  - by intros ->.
  - intros g rest ->.
    destruct (Gradation.GSyllabus g), (Gradation.EpSyllabus g);
      symmetry; f_equal;
      (apply bool_decide_eq_true_2 || apply bool_decide_eq_false_2);
      naive_solver.
Qed.

End resolver_facts.

(** ** The resolver on the small catalogue *)

(** A video whose manifest expands to two segments. *)
Lemma processVideoResource_streams_witness :
  ∃ r, @processVideoResource demo_api canonical_range demo_library
         (demo_resource "video" "abc" "") "base" = Ok r
       ∧ @video_descriptor demo_api demo_library
           (demo_resource "video" "abc" "") r.
Proof.
  eexists. split; [vm_compute; reflexivity|].
  apply (@processVideoResource_streams demo_api canonical_range demo_library
           _ "base").
  vm_compute. reflexivity.
Defined.

(** C2 as stated fails: the manifest of the only quality of this video
    expands, without error, to no segment; [processVideoResource] succeeds
    and returns a descriptor whose only Stream has no Part. *)
Lemma processVideoResource_stream_without_part :
  ∃ data,
    @processVideoResource demo_api canonical_range demo_library
      (demo_resource "video" "empty" "") "base" = Ok (Some data)
    ∧ Data.Streams data
      = {[ "empty_SD" :=
           {| Stream.ID := "empty_SD"; Stream.Parts := [];
              Stream.Quality := "480p"; Stream.Size := 2048;
              Stream.Ext := ""; Stream.NeedMux := false |} ]}
    ∧ ∀ id st, Data.Streams data !! id = Some st → Stream.Parts st = [].
Proof.
  eexists. split; [vm_compute; reflexivity|].
  match goal with |- ?X = ?Y ∧ _ => assert (X = Y) as Heq end.
  { vm_compute. reflexivity. }
  split; [exact Heq|].
  intros id st. rewrite Heq. by intros [_ <-]%lookup_singleton_Some.
Qed.

(** A video whose only quality is marked unavailable. *)
Lemma processVideoResource_no_streams_witness :
  @processVideoResource demo_api canonical_range demo_library
    (demo_resource "video" "none" "") "base"
  = Err (errors_New "no available video streams").
Proof.
  eapply (@processVideoResource_no_streams demo_api canonical_range demo_library).
  - reflexivity.
  - cbn [VideoResource.List]. intros quality qualityInfo.
    intros [_ <-]%lookup_singleton_Some. left. discriminate.
Defined.

(** A resource with the discriminator [audio]. *)
Lemma processResource_at_most_one_witness :
  @processResource demo_api canonical_range demo_library
    (demo_resource "audio" "abc" "") "base" = Ok None
  ∧ @extractResources demo_api canonical_range sequential demo_library
      [demo_resource "audio" "abc" ""] "base" = Ok [].
Proof.
  apply (proj2 (@processResource_at_most_one demo_api canonical_range
                  sequential demo_library (demo_resource "audio" "abc" "")
                  "base"));
    discriminate.
Defined.

(** A live resource whose deep link parses and whose room cannot be
    checked. *)
Lemma processResource_live_check_fails_witness :
  @processResource demo_api canonical_range demo_library
    (demo_resource "live_new" ""
       "gaodunapp://gd/liveroom/v2/replays/detail?recordId=r1&did=d2&roomId=a-b&token=t0k")
    "base" = Ok None
  ∧ @extractResources demo_api canonical_range sequential demo_library
      [demo_resource "live_new" ""
         "gaodunapp://gd/liveroom/v2/replays/detail?recordId=r1&did=d2&roomId=a-b&token=t0k"]
      "base" = Ok [].
Proof.
  apply (@processResource_live_check_fails demo_api canonical_range sequential
           demo_library _ "base" "a-b" "t0k"
           (errors_New "API error: token expired")).
  - reflexivity.
  - vm_compute. reflexivity.
  - reflexivity.
Defined.

(** Courses with no gradation, of schema A and of schema B; the second
    gradation of course 33795 has the shape of schema B and is not looked
    at. *)
Lemma isGStudyCourse_first_gradation_witness :
  @isGStudyCourse demo_api "0" = Err (errors_New "no G-Study course found")
  ∧ @isGStudyCourse demo_api "33795" = Ok true
  ∧ @isGStudyCourse demo_api "17244" = Ok false.
Proof.
  split; [|split].
  - apply (proj1 (@isGStudyCourse_first_gradation demo_api "0")).
    reflexivity.
  - exact (proj2 (@isGStudyCourse_first_gradation demo_api "33795") _ _ eq_refl).
  - exact (proj2 (@isGStudyCourse_first_gradation demo_api "17244") _ _ eq_refl).
Defined.

(** ** Tree walker, schema B *)

(** Induction over a syllabus tree. *)
Lemma Syllabus_children_ind (P : Syllabus.t → Prop) :
  (∀ s, Forall P (Syllabus.Children s) → P s) → ∀ s, P s.
Proof.
  intros Hstep. fix IH 1. intros s. apply Hstep.
  destruct s as [? ? ? ? ? ? ? children ? ? ? ? ? ? ?]. simpl.
  induction children as [|child children IHc]; constructor; [apply IH|done].
Qed.

Section schemaB_facts.
Context `{APIClient, MapRange, Scheduler, Library}.

(** No goroutine of the schema-B walker appends a descriptor. *)
Lemma extractEpStudySyllabus_item_nil courseID gradationName syllabus :
  concat (extractEpStudySyllabus_item courseID gradationName syllabus) = [].
Proof.
  induction syllabus as [syllabus IH] using Syllabus_children_ind.
  destruct syllabus as [? ? ? ? ? isResource ? children ? ? ? ? ? ? ?].
  cbn [extractEpStudySyllabus_item Syllabus.Children Syllabus.IsResource
       Syllabus.Name] in *.
  assert (gather (map (extractEpStudySyllabus_item courseID gradationName)
                      children) = []) as ->.
  { apply gather_nil. by apply Forall_map. }
  unfold extractEpStudyResources.
  destruct (0 <? length children)%nat, (bool_decide (isResource = 0)); done.
Qed.

Lemma extractEpStudySyllabus_nil courseID gradationName syllabusItems :
  extractEpStudySyllabus courseID gradationName syllabusItems = Ok [].
Proof.
  unfold extractEpStudySyllabus. f_equal. apply gather_nil, Forall_map.
  induction syllabusItems; constructor; [|done].
  apply extractEpStudySyllabus_item_nil.
Qed.

Lemma extractEpStudyCourse_nil courseID :
  extractEpStudyCourse courseID
  = match EpStudy courseID with
    | Ok _ => Ok []
    | Err err => Err (WithStack err)
    end.
Proof.
  unfold extractEpStudyCourse.
  destruct (EpStudy courseID) as [gradations|err]; [|done].
  f_equal. apply gather_nil, Forall_map.
  induction gradations as [|grad gradations IH]; constructor; [|done].
  unfold compose. cbv beta zeta. case_bool_decide; [done|].
  destruct (EpStudySyllabus _ _) as [syllabus|?]; [|done].
  by rewrite extractEpStudySyllabus_nil.
Qed.

(** C10.  The schema-B resource mapping returns an empty list for every
    node, so the schema-B walker returns an empty list for every item
    list, at any depth, and so does the extraction of a schema-B course
    whenever it succeeds; it succeeds as soon as the gradation listing can
    be fetched. *)
Theorem extractEpStudy_empty :
  (∀ syllabus baseDir, extractEpStudyResources syllabus baseDir = Ok [])
  ∧ (∀ courseID gradationName syllabusItems,
       extractEpStudySyllabus courseID gradationName syllabusItems = Ok [])
  ∧ (∀ courseID,
       (∀ allData, extractEpStudyCourse courseID = Ok allData → allData = [])
       ∧ (is_Ok (EpStudy courseID) = true →
          extractEpStudyCourse courseID = Ok []))
  ∧ (∀ URL courseID,
       extractCourseID URL = Ok courseID →
       isGStudyCourse courseID = Ok false →
       (∀ allData, Extract URL = Ok allData → allData = [])
       ∧ (is_Ok (EpStudy courseID) = true → Extract URL = Ok [])).
Proof.
  split; [done|]. split; [apply extractEpStudySyllabus_nil|]. split.
  - intros courseID. rewrite extractEpStudyCourse_nil.
    destruct (EpStudy courseID); split; intros; by simplify_eq/=.
  - intros URL courseID Hid Hschema. unfold Extract.
    rewrite Hid, Hschema, extractEpStudyCourse_nil.
    destruct (EpStudy courseID); split; intros; by simplify_eq/=.
Qed.

End schemaB_facts.

(** Course 17244 has a resource-flagged lesson under a chapter; its
    extraction succeeds with no descriptor. *)
Lemma extractEpStudy_empty_witness :
  @Extract demo_api canonical_range sequential demo_library
    "https://gaodun.com/course?course_id=17244" = Ok [].
Proof.
  refine (proj2 (proj2 (proj2 (proj2
    (@extractEpStudy_empty demo_api canonical_range sequential demo_library)))
    "https://gaodun.com/course?course_id=17244" "17244" _ _) _).
  - vm_compute. reflexivity.
  - reflexivity.
  - reflexivity.
Defined.

(** ** Remote gateway *)

Section client_facts.
Context `{Transport}.
Implicit Types (c : Client.client).

Lemma status_rule_check {T U} (ok : Z) (apiResp : APIResponse T)
    (k : result U) :
  ¬ is_api_status_error k →
  status_rule ok apiResp
    (if bool_decide (Status apiResp ≠ ok)
     then Err (api_status_error (Message apiResp))
     else k).
Proof.
  intros Hk. split; intros Hstatus.
  - by rewrite bool_decide_eq_true_2.
  - by rewrite bool_decide_eq_false_2 by (by intros ?).
Qed.

Lemma Ok_not_status_error {T} (x : T) : ¬ is_api_status_error (Ok x).
Proof. by intros [message ?]. Qed.

(** Every call decodes the body that [do] returns and then tests the
    status; [status_call] runs a call up to that test. *)
Ltac status_call call :=
  let Hdo := fresh "Hdo" in
  let Hjson := fresh "Hjson" in
  intros Hdo Hjson; unfold call; rewrite Hdo, Hjson;
  apply status_rule_check; try apply Ok_not_status_error.

Lemma GStudy_status c courseID resp apiResp :
  Client.do c "GET" (Client.GStudy_url courseID) [] = Ok resp →
  Unmarshal_Gradations resp = Ok apiResp →
  status_rule 0 apiResp (Client.GStudy c courseID).
Proof.
  status_call @Client.GStudy.
Qed.

Lemma GStudySyllabus_status c courseID syllabusID resp apiResp :
  Client.do c "GET" (Client.GStudySyllabus_url courseID syllabusID) []
  = Ok resp →
  Unmarshal_Syllabus resp = Ok apiResp →
  status_rule 0 apiResp (Client.GStudySyllabus c courseID syllabusID).
Proof.
  status_call @Client.GStudySyllabus.
Qed.

Lemma EpStudy_status c courseID resp apiResp :
  Client.do c "GET" (Client.EpStudy_url courseID) [] = Ok resp →
  Unmarshal_Gradations resp = Ok apiResp →
  status_rule 0 apiResp (Client.EpStudy c courseID).
Proof.
  status_call @Client.EpStudy.
Qed.

Lemma EpStudySyllabus_status c courseID syllabusID resp apiResp :
  Client.do c "GET" (Client.EpStudySyllabus_url courseID syllabusID) []
  = Ok resp →
  Unmarshal_Object resp = Ok apiResp →
  status_rule 0 apiResp (Client.EpStudySyllabus c courseID syllabusID).
Proof.
  status_call @Client.EpStudySyllabus. intros [message Hmsg].
  repeat case_match; simplify_eq.
Qed.

Lemma VideoResource_status c code res channel resp apiResp :
  Client.do c "GET" (Client.VideoResource_url code res channel)
    [ {[ "isLiveVodAuthenticate" := "true" ]} ] = Ok resp →
  Unmarshal_VideoResource resp = Ok apiResp →
  status_rule 200 apiResp (Client.VideoResource c code res channel).
Proof.
  status_call @Client.VideoResource.
Qed.

Lemma GLiveCheck_status c roomId token resp apiResp :
  Client.do c "GET" (Client.GLiveCheck_url roomId token)
    [ {[ "isLiveVodAuthenticate" := "true" ]} ] = Ok resp →
  Unmarshal_Code resp = Ok apiResp →
  status_rule 200 apiResp (Client.GLiveCheck c roomId token).
Proof.
  status_call @Client.GLiveCheck.
Qed.

(** C1, as the code has it.  For every decoded response, [GStudy],
    [GStudySyllabus], [EpStudy] and [EpStudySyllabus] return the API-status
    error, which carries the message of the response, if and only if the
    status is not 0; [VideoResource] and [GLiveCheck] return it if and only
    if the status is not 200.  A response with the accepted status never
    yields an API-status error. *)
Theorem gateway_status_error c :
  (∀ courseID resp apiResp,
     Client.do c "GET" (Client.GStudy_url courseID) [] = Ok resp →
     Unmarshal_Gradations resp = Ok apiResp →
     status_rule 0 apiResp (Client.GStudy c courseID))
  ∧ (∀ courseID syllabusID resp apiResp,
     Client.do c "GET" (Client.GStudySyllabus_url courseID syllabusID) []
     = Ok resp →
     Unmarshal_Syllabus resp = Ok apiResp →
     status_rule 0 apiResp (Client.GStudySyllabus c courseID syllabusID))
  ∧ (∀ courseID resp apiResp,
     Client.do c "GET" (Client.EpStudy_url courseID) [] = Ok resp →
     Unmarshal_Gradations resp = Ok apiResp →
     status_rule 0 apiResp (Client.EpStudy c courseID))
  ∧ (∀ courseID syllabusID resp apiResp,
     Client.do c "GET" (Client.EpStudySyllabus_url courseID syllabusID) []
     = Ok resp →
     Unmarshal_Object resp = Ok apiResp →
     status_rule 0 apiResp (Client.EpStudySyllabus c courseID syllabusID))
  ∧ (∀ code res channel resp apiResp,
     Client.do c "GET" (Client.VideoResource_url code res channel)
       [ {[ "isLiveVodAuthenticate" := "true" ]} ] = Ok resp →
     Unmarshal_VideoResource resp = Ok apiResp →
     status_rule 200 apiResp (Client.VideoResource c code res channel))
  ∧ (∀ roomId token resp apiResp,
     Client.do c "GET" (Client.GLiveCheck_url roomId token)
       [ {[ "isLiveVodAuthenticate" := "true" ]} ] = Ok resp →
     Unmarshal_Code resp = Ok apiResp →
     status_rule 200 apiResp (Client.GLiveCheck c roomId token)).
Proof.
  split_and!.
  - apply GStudy_status.
  - apply GStudySyllabus_status.
  - apply EpStudy_status.
  - apply EpStudySyllabus_status.
  - apply VideoResource_status.
  - apply GLiveCheck_status.
Qed.

End client_facts.

(** Status 500 at [GStudy], status 200 at [GLiveCheck]. *)
Lemma gateway_status_error_witness :
  @Client.GStudy (demo_transport 500) demo_client "17244"
  = Err (api_status_error "success")
  ∧ ¬ is_api_status_error
        (@Client.GLiveCheck (demo_transport 200) demo_client "room" "token").
Proof.
  split.
  - destruct (@gateway_status_error (demo_transport 500) demo_client)
      as (HGStudy & _).
    apply (HGStudy "17244" _ _ eq_refl eq_refl). discriminate.
  - destruct (@gateway_status_error (demo_transport 200) demo_client)
      as (_ & _ & _ & _ & _ & HGLiveCheck).
    apply (HGLiveCheck "room" "token" _ _ eq_refl eq_refl). reflexivity.
Defined.

(** C1 as stated fails at the two calls of the video gateway: a response
    of status 0 makes [VideoResource] return the API-status error, and a
    response of status 200, which is not zero, makes it return the
    result. *)
Lemma VideoResource_status_zero_is_error :
  (∃ resp apiResp,
     @Client.do (demo_transport 0) demo_client "GET"
       (Client.VideoResource_url "abc" "SD" 0)
       [ {[ "isLiveVodAuthenticate" := "true" ]} ] = Ok resp
     ∧ @Unmarshal_VideoResource (demo_transport 0) resp = Ok apiResp
     ∧ Status apiResp = 0
     ∧ @Client.VideoResource (demo_transport 0) demo_client "abc" "SD" 0
       = Err (api_status_error (Message apiResp)))
  ∧ (∃ resp apiResp,
     @Client.do (demo_transport 200) demo_client "GET"
       (Client.VideoResource_url "abc" "SD" 0)
       [ {[ "isLiveVodAuthenticate" := "true" ]} ] = Ok resp
     ∧ @Unmarshal_VideoResource (demo_transport 200) resp = Ok apiResp
     ∧ Status apiResp ≠ 0
     ∧ @Client.VideoResource (demo_transport 200) demo_client "abc" "SD" 0
       = Ok (Result apiResp)).
Proof.
  split; eexists _, _; (split; [reflexivity|]); (split; [reflexivity|]);
    (split; [done|reflexivity]).
Qed.

(** ** The regular expression engine against the language of a pattern *)

Section engine_facts.
Implicit Types (s rest : bytes) (caps : list bytes).

Lemma plus_greedy_sound {X} class s (k : bytes → option X) x :
  plus_greedy class s k = Some x →
  ∃ N rest, s = N ++ rest ∧ word class N ∧ k rest = Some x.
Proof.
  revert x. induction s as [|c s IH]; intros x; simpl; [done|].
  destruct (class c) eqn:Hc; [|done].
  destruct (plus_greedy class s k) as [y|] eqn:Hs.
  - intros [= <-]. destruct (IH y eq_refl) as (N & rest & -> & [_ HN] & Hk).
    exists (c :: N), rest. repeat split; [done|by constructor|done].
  - intros Hk. exists [c], s. repeat split; [done|by repeat constructor|done].
Qed.

(** A successful run has matched a text of the language and handed the
    rest of the input, with the groups it closed, to the continuation. *)
Lemma run_sound {X} r s caps (k : bytes → list bytes → option X) x :
  run r s caps k = Some x →
  ∃ m rest caps',
    s = m ++ rest ∧ derives r m caps' ∧ k rest (caps ++ caps') = Some x.
Proof.
  revert s caps k x.
  induction r as [l|class|r1 IH1 r2 IH2|r1 IH1 r2 IH2|r IH];
    intros s caps k x; cbn [run].
  - destruct (HasPrefix s (of_string l)) eqn:Hl; [|done].
    apply HasPrefix_spec in Hl as [rest ->]. rewrite drop_app_length.
    intros Hk. exists (of_string l), rest, [].
    rewrite app_nil_r. split; [done|]. split; [constructor|done].
  - intros (N & rest & -> & [? ?] & Hk)%plus_greedy_sound.
    exists N, rest, []. rewrite app_nil_r.
    split; [done|]. split; [by constructor|done].
  - destruct (run r1 s caps k) as [y|] eqn:H1.
    + intros [= <-]. apply IH1 in H1 as (m & rest & caps' & ? & ? & ?).
      exists m, rest, caps'. split; [done|]. split; [by constructor|done].
    + intros (m & rest & caps' & ? & ? & ?)%IH2.
      exists m, rest, caps'.
      split; [done|]. split; [by apply derives_Alt_r|done].
  - intros (m1 & rest1 & caps1 & -> & Hd1 & H2)%IH1.
    apply IH2 in H2 as (m2 & rest2 & caps2 & -> & Hd2 & Hk).
    exists (m1 ++ m2), rest2, (caps1 ++ caps2).
    rewrite <-!(assoc (++)). split; [done|].
    split; [by constructor|]. by rewrite (assoc (++)).
  - intros (m & rest & caps' & -> & Hd & Hk)%IH.
    exists m, rest, (caps' ++ [m]).
    split; [done|]. split; [by constructor|].
    rewrite length_app, Nat.add_sub, take_app_length in Hk.
    by rewrite (assoc (++)).
Qed.

Lemma match_here_sound r s l :
  match_here r s = Some l →
  ∃ m rest caps, s = m ++ rest ∧ derives r m caps ∧ l = m :: caps.
Proof.
  unfold match_here. intros (m & rest & caps & -> & Hd & Hk)%run_sound.
  exists m, rest, caps. split; [done|]. split; [done|].
  rewrite length_app, Nat.add_sub, take_app_length in Hk. by simplify_eq/=.
Qed.

(** What [FindStringSubmatch] returns is nil or a text of the language
    that stands in the input, followed by its groups. *)
Lemma FindStringSubmatch_sound r s :
  FindStringSubmatch r s = []
  ∨ ∃ pre m post caps,
      s = pre ++ m ++ post ∧ derives r m caps
      ∧ FindStringSubmatch r s = m :: caps.
Proof.
  induction s as [|c s IH]; cbn [FindStringSubmatch].
  - destruct (match_here r []) as [l|] eqn:Hl; [|by left].
    apply match_here_sound in Hl as (m & rest & caps & ? & ? & ->).
    right. by exists [], m, rest, caps.
  - destruct (match_here r (c :: s)) as [l|] eqn:Hl.
    + apply match_here_sound in Hl as (m & rest & caps & ? & ? & ->).
      right. by exists [], m, rest, caps.
    + destruct IH as [?|(pre & m & post & caps & -> & ? & ?)]; [by left|].
      right. by exists (c :: pre), m, post, caps.
Qed.

(** Before a text that does not go on with the class, and a continuation
    that accepts it, a greedy class takes the whole word. *)
Lemma plus_greedy_longest {X} class N rest (k : bytes → option X) x :
  word class N → (∀ c, head rest = Some c → class c = false) →
  k rest = Some x →
  plus_greedy class (N ++ rest) k = Some x.
Proof.
  intros [Hne HN] Hrest Hk. induction HN as [|c N Hc HN IH]; [done|].
  simpl. rewrite Hc. destruct N as [|c' N].
  - simpl. destruct rest as [|c' rest]; simpl; [done|].
    by rewrite (Hrest c').
  - by rewrite IH.
Qed.

Lemma HasPrefix_app_l s (l : bytes) : HasPrefix (l ++ s) l = true.
Proof. apply HasPrefix_spec. by exists s. Qed.

End engine_facts.

(** Inversion of the language of a pattern, one constructor at a time. *)
Ltac derives_inv :=
  repeat match goal with
  | H : derives (Lit _) _ _ |- _ => inversion H; clear H; subst
  | H : derives (Plus _) _ _ |- _ => inversion H; clear H; subst
  | H : derives (Alt _ _) _ _ |- _ => inversion H; clear H; subst
  | H : derives (Seq _ _) _ _ |- _ => inversion H; clear H; subst
  | H : derives (Group _) _ _ |- _ => inversion H; clear H; subst
  end.

Section engine_steps.
Implicit Types (s rest : bytes) (caps : list bytes).

Lemma find_here r s l : match_here r s = Some l → FindStringSubmatch r s = l.
Proof. intros Hl. destruct s; cbn [FindStringSubmatch]; by rewrite Hl. Qed.

Lemma run_Lit {X} l rest caps (k : bytes → list bytes → option X) x :
  k rest caps = Some x → run (Lit l) (of_string l ++ rest) caps k = Some x.
Proof. intros Hk. cbn [run]. by rewrite HasPrefix_app_l, drop_app_length. Qed.

Lemma run_Plus {X} class N rest caps (k : bytes → list bytes → option X) x :
  word class N → (∀ c, head rest = Some c → class c = false) →
  k rest caps = Some x → run (Plus class) (N ++ rest) caps k = Some x.
Proof. intros HN Hrest Hk. cbn [run]. by apply plus_greedy_longest. Qed.

Lemma run_Group_Plus {X} class N rest caps
    (k : bytes → list bytes → option X) x :
  word class N → (∀ c, head rest = Some c → class c = false) →
  k rest (caps ++ [N]) = Some x →
  run (Group (Plus class)) (N ++ rest) caps k = Some x.
Proof.
  intros HN Hrest Hk. cbn [run]. apply plus_greedy_longest; [done..|].
  by rewrite length_app, Nat.add_sub, take_app_length.
Qed.

Lemma run_Seq {X} r1 r2 s caps (k : bytes → list bytes → option X) :
  run (Seq r1 r2) s caps k = run r1 s caps (λ rest caps', run r2 rest caps' k).
Proof. done. Qed.

End engine_steps.

Lemma replay_link_parses
    (recordId did roomId token post : bytes) :
  word is_alnum recordId → word is_alnum did →
  word is_alnum_dash roomId → word is_alnum token →
  (∀ c, head post = Some c → is_alnum c = false) →
  extractRoomIDAndToken
    (to_string (replay_link recordId did roomId token ++ post))
  = Ok (to_string roomId, to_string token).
Proof.
  intros Hrec Hdid Hroom Htoken Hpost.
  unfold extractRoomIDAndToken. rewrite of_to_string.
  assert (∃ whole,
    match_here roomIDPattern (replay_link recordId did roomId token ++ post)
    = Some [whole; recordId; roomId; token]) as [whole Hhere].
  { eexists. unfold match_here, roomIDPattern, replay_link, replay_scheme.
    rewrite <-!(assoc (++)).
    rewrite run_Seq. apply run_Lit. cbv beta.
    rewrite run_Seq. apply run_Group_Plus; [done|by intros c [= <-]|].
    rewrite run_Seq. apply run_Lit. cbv beta.
    rewrite run_Seq. apply run_Plus; [done|by intros c [= <-]|].
    rewrite run_Seq. apply run_Lit. cbv beta.
    rewrite run_Seq. apply run_Group_Plus; [done|by intros c [= <-]|].
    rewrite run_Seq. apply run_Lit. cbv beta.
    apply run_Group_Plus; [done..|]. reflexivity. }
  by rewrite (find_here _ _ _ Hhere).
Qed.

(** X2.  A replay deep link at the head of the field parses into its room
    id and its token; the record id and the device id are dropped.  The
    token ends at the first byte that is not a letter or a digit. *)
Theorem extractRoomIDAndToken_complete
    (recordId did roomId token post : bytes) :
  word is_alnum recordId → word is_alnum did →
  word is_alnum_dash roomId → word is_alnum token →
  (∀ c, head post = Some c → is_alnum c = false) →
  extractRoomIDAndToken
    (to_string (replay_link recordId did roomId token ++ post))
  = Ok (to_string roomId, to_string token).
Proof. apply replay_link_parses. Qed.

Lemma extractRoomIDAndToken_complete_witness :
  extractRoomIDAndToken
    "gaodunapp://gd/liveroom/v2/replays/detail?recordId=r1&did=d2&roomId=a-b&token=t0k#x"
  = Ok ("a-b", "t0k").
Proof.
  apply (extractRoomIDAndToken_complete (of_string "r1") (of_string "d2")
           (of_string "a-b") (of_string "t0k") (of_string "#x"));
    try (split; [discriminate|by repeat constructor]).
  by intros c [= <-].
Defined.

(** X3.  Whatever [extractRoomIDAndToken] returns was cut out of a replay
    deep link that stands in its argument: the room id is a non-empty text
    of letters, digits and dashes, the token a non-empty text of letters
    and digits, so neither holds a separator of a URL. *)
Theorem extractRoomIDAndToken_sound (URL roomID token : string) :
  extractRoomIDAndToken URL = Ok (roomID, token) →
  ∃ pre recordId did post,
    of_string URL
    = pre ++ replay_link recordId did (of_string roomID) (of_string token)
      ++ post
    ∧ word is_alnum recordId ∧ word is_alnum did
    ∧ word is_alnum_dash (of_string roomID)
    ∧ word is_alnum (of_string token).
Proof.
  unfold extractRoomIDAndToken.
  destruct (FindStringSubmatch_sound roomIDPattern (of_string URL))
    as [->|(pre & m & post & caps & HURL & Hd & ->)]; [done|].
  unfold roomIDPattern in Hd. derives_inv. cbn [app].
  intros [= <- <-]. rewrite !of_to_string.
  match goal with
  | H : of_string URL = _ ++ (_ ++ ?r ++ _ ++ ?d ++ _) ++ _ |- _ =>
      exists pre, r, d, post
  end.
  split; [|by repeat split].
  rewrite HURL. unfold replay_link, replay_scheme.
  by rewrite <-!(assoc (++)).
Qed.

Lemma extractRoomIDAndToken_sound_witness :
  ∃ pre recordId did post,
    of_string
      "see gaodunapp://gd/liveroom/v2/replays/detail?recordId=r1&did=d2&roomId=a-b&token=t0k#x"
    = pre ++ replay_link recordId did (of_string "a-b") (of_string "t0k")
      ++ post
    ∧ word is_alnum recordId ∧ word is_alnum did
    ∧ word is_alnum_dash (of_string "a-b")
    ∧ word is_alnum (of_string "t0k").
Proof.
  apply extractRoomIDAndToken_sound. vm_compute. reflexivity.
Defined.

(** X1.  The course ID that [extractCourseID] returns is a non-empty text
    of digits that stands in the URL right after [course_id=], [courseId=]
    or [/course/]; the only error it returns is the not-found error. *)
Theorem extractCourseID_sound (URL : string) :
  match extractCourseID URL with
  | Ok courseID =>
      word is_digit (of_string courseID)
      ∧ ∃ pre key post,
          key ∈ query_keys ++ path_keys
          ∧ of_string URL
            = pre ++ of_string key ++ of_string courseID ++ post
  | Err err => err = errors_New "course ID not found in URL"
  end.
Proof.
  unfold extractCourseID.
  destruct (FindStringSubmatch_sound courseIDPattern (of_string URL))
    as [->|(pre & m & post & caps & HURL & Hd & ->)].
  - destruct (FindStringSubmatch_sound pathPattern (of_string URL))
      as [->|(pre & m & post & caps & HURL & Hd & ->)]; [done|].
    unfold pathPattern in Hd. derives_inv. cbn [app]. rewrite of_to_string.
    split; [done|]. exists pre, "/course/", post.
    split; [set_solver|]. by rewrite HURL, <-!(assoc (++)).
  - unfold courseIDPattern in Hd. derives_inv; cbn [app]; rewrite of_to_string.
    + split; [done|]. exists pre, "course_id=", post.
      split; [set_solver|]. by rewrite HURL, <-!(assoc (++)).
    + split; [done|]. exists pre, "courseId=", post.
      split; [set_solver|]. by rewrite HURL, <-!(assoc (++)).
Qed.

(** ** Sanitizer: fixed points and the empty result *)

Section trim_facts.
Implicit Types (s cutset : bytes) (c : ascii).

Lemma TrimLeft_id s cutset :
  (∀ c, head s = Some c → c ∉ cutset) → TrimLeft s cutset = s.
Proof.
  destruct s as [|c s]; simpl; [done|]. intros Hc.
  by rewrite (proj2 (in_cutset_false cutset c) (Hc c eq_refl)).
Qed.

Lemma TrimRight_id s cutset :
  (∀ c, last s = Some c → c ∉ cutset) → TrimRight s cutset = s.
Proof.
  induction s as [|c s IH]; simpl; [done|]. intros Hc.
  destruct s as [|c' s].
  - simpl. by rewrite (proj2 (in_cutset_false cutset c) (Hc c eq_refl)).
  - rewrite IH; [done|]. intros c'' Hl. apply Hc. by rewrite last_cons, Hl.
Qed.





End trim_facts.

Lemma dash_banned_id (s : bytes) :
  Forall (λ c, c ∉ banned) s → dash_banned s = s.
Proof.
  unfold dash_banned. induction 1 as [|c s Hc _ IH]; [done|].
  cbn [map]. by rewrite IH, (proj2 (in_cutset_false banned c) Hc).
Qed.

Lemma trim_and_truncate_id (s : bytes) :
  (length s ≤ 100)%nat →
  (∀ c, head s = Some c → c ∉ of_string " .") →
  (∀ c, last s = Some c → c ∉ of_string " .") →
  trim_and_truncate s = s.
Proof.
  intros Hlen Hhead Hlast. unfold trim_and_truncate, Trim, len.
  rewrite TrimRight_id, TrimLeft_id by done.
  by rewrite (proj2 (Nat.ltb_ge _ _) Hlen).
Qed.


Lemma dash_banned_safe (s : bytes) :
  safe_name (trim_and_truncate (dash_banned s)).
Proof.
  split; [|split; [|split]].
  - apply Forall_forall. intros c Hin Hc.
    by eapply dash_banned_clean, trim_and_truncate_elem.
  - apply trim_and_truncate_length.
  - apply trim_and_truncate_head.
  - apply trim_and_truncate_last.
Qed.

(** X4.  The names [sanitizeFileName] returns unchanged are exactly the
    safe ones: without banned character, at most 100 bytes long, neither
    starting nor ending with a space or a dot. *)
Theorem sanitizeFileName_fixed_points `{MapRange} (name : string) :
  sanitizeFileName name = name ↔ safe_name (of_string name).
Proof.
  rewrite sanitizeFileName_eq. split.
  - intros Heq. rewrite <-Heq, of_to_string. apply dash_banned_safe.
  - intros (Hclean & Hlen & Hhead & Hlast).
    by rewrite dash_banned_id, trim_and_truncate_id, to_of_string.
Qed.

(** X5.  Sanitizing twice is sanitizing once. *)
Theorem sanitizeFileName_idempotent `{MapRange} (name : string) :
  sanitizeFileName (sanitizeFileName name) = sanitizeFileName name.
Proof.
  rewrite !sanitizeFileName_eq, of_to_string.
  destruct (dash_banned_safe (of_string name)) as (Hclean & Hlen & Hhead & Hlast).
  by rewrite dash_banned_id, trim_and_truncate_id.
Qed.



(** ** Resource resolver: what does not depend on the order of a loop *)

Lemma string_app_inj (a b c : string) : a +:+ b = a +:+ c → b = c.
Proof. induction a as [|x a IH]; simpl; [done|]. intros [= ?]. auto. Qed.

(** A left fold whose steps commute on the elements of a list does not
    depend on the order of the list. *)
Lemma foldl_commute_perm {A B} (f : B → A → B) (l1 l2 : list A) (b : B) :
  l1 ≡ₚ l2 →
  (∀ x y b, x ∈ l1 → y ∈ l1 → f (f b x) y = f (f b y) x) →
  foldl f b l1 = foldl f b l2.
Proof.
  intros Hperm. revert b.
  induction Hperm as [|x l1 l2 _ IH|x y l|l1 l2 l3 H12 IH1 _ IH2];
    intros b Hcomm.
  - done.
  - simpl. apply IH. intros ?????. apply Hcomm; by right.
  - simpl. f_equal. apply Hcomm; [by left|by right; left].
  - rewrite IH1 by done. apply IH2.
    intros ??? Hx Hy. apply Hcomm; by rewrite H12.
Qed.

Section loop_facts.
Context `{APIClient, Library}.

(** A pass of the quality loop, told apart. *)
Lemma quality_step_cases resource streams quality qualityInfo :
  (quality_step resource streams (quality, qualityInfo) = streams
   ∧ ∀ urls, ¬ usable qualityInfo urls)
  ∨ ∃ urls,
      usable qualityInfo urls
      ∧ quality_step resource streams (quality, qualityInfo)
        = <[Resource.VideoID resource +:+ "_" +:+ quality :=
              video_stream resource quality qualityInfo urls]> streams.
Proof.
  unfold quality_step, usable.
  case_bool_decide as Ha; [left; split; [done|]; naive_solver|].
  case_bool_decide as Hp; [left; split; [done|]; naive_solver|].
  cbn [orb].
  destruct (utils_M3u8URLsWithHeaders _ _) as [urls|e] eqn:Hu.
  - right. exists urls. split; [|done]. split; [|done].
    by destruct (decide (VideoQuality.Available qualityInfo = 1)).
  - left. split; [done|]. intros urls (_ & _ & ?). congruence.
Qed.

Lemma usable_urls qualityInfo urls1 urls2 :
  usable qualityInfo urls1 → usable qualityInfo urls2 → urls1 = urls2.
Proof. intros (_ & _ & H1) (_ & _ & H2). congruence. Qed.

(** Two passes for different qualities commute. *)
Lemma quality_step_commute resource streams q1 i1 q2 i2 :
  q1 ≠ q2 →
  quality_step resource (quality_step resource streams (q1, i1)) (q2, i2)
  = quality_step resource (quality_step resource streams (q2, i2)) (q1, i1).
Proof.
  intros Hq.
  assert (Resource.VideoID resource +:+ "_" +:+ q1
          ≠ Resource.VideoID resource +:+ "_" +:+ q2) as Hid.
  { intros Heq%string_app_inj%string_app_inj. done. }
  destruct (quality_step_cases resource streams q1 i1)
    as [[E1 N1]|(u1 & U1 & E1)];
  destruct (quality_step_cases resource streams q2 i2)
    as [[E2 N2]|(u2 & U2 & E2)];
  rewrite E1, E2.
  - by rewrite E1.
  - destruct (quality_step_cases resource
                (<[Resource.VideoID resource +:+ "_" +:+ q2 :=
                   video_stream resource q2 i2 u2]> streams) q1 i1)
      as [[E3 _]|(u3 & U3 & _)]; [by rewrite E3|].
    by destruct (N1 u3).
  - destruct (quality_step_cases resource
                (<[Resource.VideoID resource +:+ "_" +:+ q1 :=
                   video_stream resource q1 i1 u1]> streams) q2 i2)
      as [[E3 _]|(u3 & U3 & _)]; [by rewrite E3|].
    by destruct (N2 u3).
  - destruct (quality_step_cases resource
                (<[Resource.VideoID resource +:+ "_" +:+ q1 :=
                   video_stream resource q1 i1 u1]> streams) q2 i2)
      as [[_ N3]|(u3 & U3 & E3)]; [by destruct (N3 u2)|].
    destruct (quality_step_cases resource
                (<[Resource.VideoID resource +:+ "_" +:+ q2 :=
                   video_stream resource q2 i2 u2]> streams) q1 i1)
      as [[_ N4]|(u4 & U4 & E4)]; [by destruct (N4 u1)|].
    rewrite E3, E4.
    rewrite (usable_urls _ _ _ U3 U2), (usable_urls _ _ _ U4 U1).
    by apply insert_insert_ne.
Qed.

(** The quality loop over the entries of a map, in two orders. *)
Lemma quality_loop_order resource (m : gmap string VideoQuality.t)
    (l1 l2 : list (string * VideoQuality.t)) :
  l1 ≡ₚ map_to_list m → l2 ≡ₚ map_to_list m →
  foldl (quality_step resource) ∅ l1 = foldl (quality_step resource) ∅ l2.
Proof.
  intros H1 H2. apply foldl_commute_perm; [by rewrite H1, H2|].
  intros [q1 i1] [q2 i2] streams Hx Hy.
  rewrite H1 in Hx, Hy. apply elem_of_map_to_list in Hx, Hy.
  destruct (decide (q1 = q2)) as [->|Hq]; [by simplify_eq|].
  by apply quality_step_commute.
Qed.

End loop_facts.

Lemma processVideoResource_range `{APIClient, Library}
    (R1 R2 : MapRange) (resource : Resource.t) (baseDir : string) :
  @processVideoResource _ R1 _ resource baseDir
  = @processVideoResource _ R2 _ resource baseDir.
Proof.
  unfold processVideoResource.
  destruct (VideoResource _ _ _) as [videoRes|e]; [|done].
  rewrite (quality_loop_order resource (VideoResource.List videoRes)
             (@range R1 _ (VideoResource.List videoRes))
             (@range R2 _ (VideoResource.List videoRes)))
    by apply range_perm.
  by rewrite !sanitizeFileName_eq.
Qed.

Lemma processResource_range `{APIClient, Library}
    (R1 R2 : MapRange) (resource : Resource.t) (baseDir : string) :
  @processResource _ R1 _ resource baseDir
  = @processResource _ R2 _ resource baseDir.
Proof.
  unfold processResource.
  repeat case_bool_decide; repeat case_match; try done;
    try apply processVideoResource_range.
  unfold processNonVideoResource. by rewrite !sanitizeFileName_eq.
Qed.

(** X7.  The order in which the maps are visited (the quality list, the
    replacement table of the sanitizer) has no influence on the resolution
    of a resource: the descriptor, its stream map and the error are the
    same in every run. *)
Theorem processResource_order_independent `{APIClient, Library}
    (R1 R2 : MapRange) (resource : Resource.t) (baseDir : string) :
  @processResource _ R1 _ resource baseDir
  = @processResource _ R2 _ resource baseDir.
Proof. apply processResource_range. Qed.

Section resolver_more.
Context `{APIClient, MapRange, Library}.

Lemma usable_stream_present (resource : Resource.t)
    (baseDir : string) (videoRes : VideoResource.t) (quality : string)
    (qualityInfo : VideoQuality.t) (urls : list string) :
  VideoResource (Resource.VideoID resource) "SD" 0 = Ok videoRes →
  VideoResource.List videoRes !! quality = Some qualityInfo →
  usable qualityInfo urls →
  ∃ data,
    processVideoResource resource baseDir = Ok (Some data)
    ∧ Data.URL data = "gaodun://video/" +:+ Resource.VideoID resource
    ∧ Data.Streams data !! (Resource.VideoID resource +:+ "_" +:+ quality)
      = Some (video_stream resource quality qualityInfo urls).
Proof.
  intros Hfetch Hq Husable. unfold processVideoResource. rewrite Hfetch.
  apply elem_of_map_to_list, elem_of_Permutation in Hq as [rest Hrest].
  assert (rest ++ [(quality, qualityInfo)]
          ≡ₚ map_to_list (VideoResource.List videoRes)) as Hlast.
  { rewrite Hrest. symmetry. apply Permutation_cons_append. }
  rewrite (quality_loop_order resource (VideoResource.List videoRes) _ _
             (range_perm _) Hlast).
  rewrite foldl_app. cbn [foldl].
  destruct (quality_step_cases resource
              (foldl (quality_step resource) ∅ rest) quality qualityInfo)
    as [[_ Hno]|(urls' & Husable' & ->)]; [by destruct (Hno urls)|].
  rewrite (usable_urls _ _ _ Husable' Husable).
  case_bool_decide as Hsize.
  - apply map_size_empty_inv in Hsize.
    by destruct (insert_non_empty _ _ _ Hsize).
  - eexists. split; [done|]. split; [done|].
    cbn [Data.Streams]. apply lookup_insert_eq.
Qed.

(** X8.  Every usable quality of the fetched list gets its stream: the
    resolution succeeds, and the descriptor holds, under the key
    [<videoID>_<quality>], a stream with one [ts] part per segment URL, in
    the order of the manifest. *)
Theorem processVideoResource_usable_stream (resource : Resource.t)
    (baseDir : string) (videoRes : VideoResource.t) (quality : string)
    (qualityInfo : VideoQuality.t) (urls : list string) :
  VideoResource (Resource.VideoID resource) "SD" 0 = Ok videoRes →
  VideoResource.List videoRes !! quality = Some qualityInfo →
  usable qualityInfo urls →
  ∃ data,
    processVideoResource resource baseDir = Ok (Some data)
    ∧ Data.Streams data !! (Resource.VideoID resource +:+ "_" +:+ quality)
      = Some (video_stream resource quality qualityInfo urls).
Proof.
  intros Hfetch Hq Husable.
  destruct (usable_stream_present resource baseDir _ _ _ _ Hfetch Hq Husable)
    as (data & ? & _ & ?).
  by exists data.
Qed.

(** X19.  The resolution of a live resource, end to end: when the deep
    link of a [live_new] resource is a replay link, the token exchange for
    its room id and token returns a video code, and the quality list of
    that code has a usable quality, the resource resolves to a descriptor
    of the video of that code, with that quality's stream under the key
    [<code>_<quality>]; the video ID the record came with plays no part. *)
Theorem processResource_live_new (resource : Resource.t) (baseDir : string)
    (recordId did roomId token post : bytes) (code : string)
    (videoRes : VideoResource.t) (quality : string)
    (qualityInfo : VideoQuality.t) (urls : list string) :
  Resource.Discriminator resource = "live_new" →
  Resource.LiveUrlPlayBackApp resource
  = to_string (replay_link recordId did roomId token ++ post) →
  word is_alnum recordId → word is_alnum did →
  word is_alnum_dash roomId → word is_alnum token →
  (∀ c, head post = Some c → is_alnum c = false) →
  GLiveCheck (to_string roomId) (to_string token) = Ok code →
  VideoResource code "SD" 0 = Ok videoRes →
  VideoResource.List videoRes !! quality = Some qualityInfo →
  usable qualityInfo urls →
  ∃ data,
    processResource resource baseDir = Ok (Some data)
    ∧ Data.URL data = "gaodun://video/" +:+ code
    ∧ Data.Streams data !! (code +:+ "_" +:+ quality)
      = Some (video_stream (Resource.set_VideoID code resource)
                           quality qualityInfo urls).
Proof.
  intros Hdisc Hlink Hrec Hdid Hroom Htoken Hpost Hcheck Hfetch Hq Husable.
  unfold processResource.
  rewrite Hdisc, bool_decide_eq_true_2 by done.
  rewrite Hlink, replay_link_parses by done. rewrite Hcheck.
  apply (usable_stream_present (Resource.set_VideoID code resource) baseDir
           videoRes quality qualityInfo urls); done.
Qed.



End resolver_more.

(** ** Aggregation: exact up to order, whatever the schedule *)

Section aggregation_facts.
Context `{APIClient, Library}.
Implicit Types (R : MapRange) (S : Scheduler).

(** The batches of two runs hold the same descriptors. *)
Lemma gather_same S1 S2 {A B} (f g : B → list (list A)) (l : list B) :
  Forall (λ x, concat (f x) ≡ₚ concat (g x)) l →
  @gather S1 A (map f l) ≡ₚ @gather S2 A (map g l).
Proof.
  intros Hall. rewrite !gather_perm.
  induction Hall as [|x l Hx _ IH]; simpl; [done|].
  by rewrite !concat_app, Hx, IH.
Qed.

Lemma extractResources_perm R S resources baseDir :
  ∃ allData,
    @extractResources _ R S _ resources baseDir = Ok allData
    ∧ allData ≡ₚ @resolved _ R _ resources baseDir.
Proof.
  unfold extractResources, resolved. eexists. split; [done|].
  rewrite gather_perm.
  induction resources as [|res resources IH]; simpl; [done|].
  rewrite concat_app, IH.
  by destruct (processResource res baseDir) as [[data|]|e].
Qed.

Lemma resolved_range R1 R2 resources baseDir :
  @resolved _ R1 _ resources baseDir = @resolved _ R2 _ resources baseDir.
Proof.
  unfold resolved. f_equal. apply map_ext. intros res.
  by rewrite (processResource_range R1 R2).
Qed.

Lemma extractResources_same R1 S1 R2 S2 resources baseDir :
  same_up_to_order (@extractResources _ R1 S1 _ resources baseDir)
                   (@extractResources _ R2 S2 _ resources baseDir).
Proof.
  destruct (extractResources_perm R1 S1 resources baseDir) as (l1 & -> & H1).
  destruct (extractResources_perm R2 S2 resources baseDir) as (l2 & -> & H2).
  simpl. by rewrite H1, H2, (resolved_range R1 R2).
Qed.

Lemma batch_same {A} (r1 r2 : result (list A)) :
  same_up_to_order r1 r2 →
  concat (match r1 with Err _ => [] | Ok data => [data] end)
  ≡ₚ concat (match r2 with Err _ => [] | Ok data => [data] end).
Proof.
  destruct r1, r2; simpl; try done. intros ->. done.
Qed.

Lemma resource_count_unfold (syllabus : Syllabus.t) :
  resource_count syllabus
  = (list_sum (map (λ group, length (fst group)) (resourceGroups syllabus))
     + list_sum (map resource_count (Syllabus.Children syllabus)))%nat.
Proof. destruct syllabus. simpl. lia. Qed.

Lemma extractGStudySyllabus_unfold R S courseID gradationName syllabus :
  @extractGStudySyllabus _ R S _ courseID gradationName syllabus
  = Ok ((if (0 <? length (Syllabus.Children syllabus))%nat
         then
           @gather S _
             (map (λ childSyl,
                     match @extractGStudySyllabus _ R S _
                             courseID gradationName childSyl with
                     | Err _ => []
                     | Ok childData => [childData]
                     end)
                  (Syllabus.Children syllabus))
         else [])
        ++ @gather S _
             (map (λ group : list Resource.t * string,
                     match @extractResources _ R S _ (fst group)
                             (filepath_Join
                                [filepath_Join
                                   [courseID;
                                    @sanitizeFileName R gradationName;
                                    @sanitizeFileName R
                                      (Syllabus.Name syllabus)]]) with
                     | Err _ => []
                     | Ok resourceData => [resourceData]
                     end)
                  (filter (λ group : list Resource.t * string,
                             length (fst group) ≠ 0%nat)
                          (resourceGroups syllabus)))).
Proof. by destruct syllabus. Qed.

Lemma extractGStudySyllabus_same R1 S1 R2 S2 courseID gradationName syllabus :
  same_up_to_order
    (@extractGStudySyllabus _ R1 S1 _ courseID gradationName syllabus)
    (@extractGStudySyllabus _ R2 S2 _ courseID gradationName syllabus).
Proof.
  induction syllabus as [syllabus IH] using Syllabus_children_ind.
  rewrite !extractGStudySyllabus_unfold. cbn [same_up_to_order].
  rewrite !sanitizeFileName_eq.
  apply Permutation_app.
  - destruct (0 <? length (Syllabus.Children syllabus))%nat; [|done].
    apply gather_same. eapply Forall_impl; [exact IH|].
    intros child Hchild. by apply batch_same.
  - apply gather_same, Forall_forall. intros group _.
    apply batch_same, extractResources_same.
Qed.

Lemma extractGStudyCourse_same R1 S1 R2 S2 courseID :
  same_up_to_order (@extractGStudyCourse _ R1 S1 _ courseID)
                   (@extractGStudyCourse _ R2 S2 _ courseID).
Proof.
  unfold extractGStudyCourse.
  destruct (GStudy courseID) as [gradations|e]; [|done].
  cbn [same_up_to_order]. apply gather_same, Forall_forall. intros grad _.
  destruct (Gradation.GSyllabus grad); [|done].
  destruct (GStudySyllabus _ _) as [[syllabus|]|e]; [|done..].
  apply batch_same, extractGStudySyllabus_same.
Qed.

(** X10.  The aggregation of [extractResources] is exact up to order: it
    returns, in the order in which the goroutines finish, the descriptors
    of exactly the resources that resolve to one; resources that fail or
    are skipped leave no trace, and no error is returned. *)
Theorem extractResources_exact `{MapRange, Scheduler}
    (resources : list Resource.t) (baseDir : string) :
  ∃ allData,
    extractResources resources baseDir = Ok allData
    ∧ allData ≡ₚ resolved resources baseDir.
Proof. apply extractResources_perm. Qed.

(** X11.  Neither the schedule of the goroutines nor the order in which maps
    are visited changes what [Extract] finds: two runs on the same URL
    return the same error, or the same descriptors up to their order. *)
Theorem Extract_same_up_to_order (R1 R2 : MapRange) (S1 S2 : Scheduler)
    (URL : string) :
  same_up_to_order (@Extract _ R1 S1 _ URL) (@Extract _ R2 S2 _ URL).
Proof.
  unfold Extract. destruct (extractCourseID URL) as [courseID|e]; [|done].
  destruct (isGStudyCourse courseID) as [[|]|e]; [| |done].
  - pose proof (extractGStudyCourse_same R1 S1 R2 S2 courseID) as Hsame.
    destruct (@extractGStudyCourse _ R1 S1 _ courseID),
      (@extractGStudyCourse _ R2 S2 _ courseID); simpl in *;
      by simplify_eq.
  - rewrite !extractEpStudyCourse_nil. destruct (EpStudy courseID); simpl; done.
Qed.

Lemma children_batches_length {A} (count : Syllabus.t → nat)
    (walk : Syllabus.t → result (list A)) (children : list Syllabus.t) :
  Forall (λ child, ∃ allData, walk child = Ok allData
                              ∧ (length allData ≤ count child)%nat) children →
  (length (concat (concat
     (map (λ child, match walk child with
                    | Err _ => []
                    | Ok childData => [childData]
                    end) children)))
   ≤ list_sum (map count children))%nat.
Proof.
  induction 1 as [|child children (allData & Hwalk & Hlen) _ IH]; [done|].
  cbn [map list_sum]. rewrite Hwalk. cbn [concat app].
  rewrite length_app. simpl (list_sum _). lia.
Qed.

Lemma group_batches_length R S baseDir
    (groups : list (list Resource.t * string)) :
  (length (concat (concat
     (map (λ group : list Resource.t * string,
             match @extractResources _ R S _ (fst group) baseDir with
             | Err _ => []
             | Ok resourceData => [resourceData]
             end) groups)))
   ≤ list_sum (map (λ group, length (fst group)) groups))%nat.
Proof.
  induction groups as [|group groups IH]; [done|].
  cbn [map list_sum].
  destruct (@extractResources_length _ R S _ (fst group) baseDir)
    as (allData & Hgroup & Hlen).
  rewrite Hgroup. cbn [concat app]. rewrite length_app.
  simpl (list_sum _). lia.
Qed.

Lemma list_sum_filter {A} (P : A → Prop) `{∀ x, Decision (P x)}
    (size : A → nat) (l : list A) :
  (list_sum (map size (filter P l)) ≤ list_sum (map size l))%nat.
Proof.
  induction l as [|x l IH]; simpl; [done|].
  rewrite filter_cons. case_decide; simpl; lia.
Qed.

(** X12.  The schema-A walker returns at most one descriptor per resource
    record of the tree, whatever the schedule. *)
Theorem extractGStudySyllabus_count `{MapRange, Scheduler}
    (courseID gradationName : string) (syllabus : Syllabus.t) :
  ∃ allData,
    extractGStudySyllabus courseID gradationName syllabus = Ok allData
    ∧ (length allData ≤ resource_count syllabus)%nat.
Proof.
  induction syllabus as [syllabus IH] using Syllabus_children_ind.
  rewrite extractGStudySyllabus_unfold, resource_count_unfold.
  eexists. split; [done|]. rewrite length_app, gather_length.
  pose proof (children_batches_length resource_count
                (extractGStudySyllabus courseID gradationName) _ IH)
    as Hchildren.
  etrans; [apply Nat.add_le_mono;
             [|etrans; [apply group_batches_length|apply list_sum_filter]]|].
  - instantiate (1 := list_sum (map resource_count (Syllabus.Children syllabus))).
    destruct (0 <? length (Syllabus.Children syllabus))%nat; [|simpl; lia].
    by rewrite gather_length.
  - lia.
Qed.

End aggregation_facts.

Lemma extractCourseID_errors (URL : string) :
  match extractCourseID URL with
  | Ok _ => True
  | Err err => err = errors_New "course ID not found in URL"
  end.
Proof.
  unfold extractCourseID.
  destruct (FindStringSubmatch courseIDPattern _) as [|? [|? ?]]; try done;
    by destruct (FindStringSubmatch pathPattern _) as [|? [|? ?]].
Qed.

(** ** What [Extract] lets through *)

Section extract_facts.
Context `{APIClient, MapRange, Scheduler, Library}.

(** X13.  The errors of [Extract] are the structural ones: no course ID in the
    URL, a gradation listing (of schema A, or of schema B for a course of
    schema B) that cannot be fetched, or an empty gradation listing.  A
    failure anywhere below (a syllabus, a resource, a token exchange, a
    quality list, a manifest) never surfaces. *)
Theorem Extract_errors (URL : string) (err : error) :
  Extract URL = Err err →
  err = WithStack (errors_New "course ID not found in URL")
  ∨ ∃ courseID,
      extractCourseID URL = Ok courseID
      ∧ ((∃ e, GStudy courseID = Err e ∧ err = WithStack (WithStack e))
         ∨ (GStudy courseID = Ok []
            ∧ err = WithStack (errors_New "no G-Study course found"))
         ∨ (∃ e, isGStudyCourse courseID = Ok false
                 ∧ EpStudy courseID = Err e
                 ∧ err = WithStack (WithStack e))).
Proof.
  unfold Extract.
  pose proof (extractCourseID_errors URL) as Hid.
  destruct (extractCourseID URL) as [courseID|e]; [|intros [= <-]; left; by rewrite Hid].
  clear Hid. intros Herr. right. exists courseID. split; [done|].
  unfold isGStudyCourse, extractGStudyCourse in *.
  destruct (GStudy courseID) as [[|g rest]|e] eqn:HG.
  - right. left. by simplify_eq.
  - destruct (Gradation.GSyllabus g), (Gradation.EpSyllabus g);
      try done; rewrite extractEpStudyCourse_nil in Herr;
      destruct (EpStudy courseID) as [|e] eqn:HE; try done;
      right; right; exists e; by simplify_eq.
  - left. exists e. by simplify_eq.
Qed.

End extract_facts.

(** ** The transport: the expired-session marker *)

Section transport_facts.
Context `{Transport}.

Lemma do_answers (c : Client.client) method url additionalHeaders body :
  answers_with body →
  Client.do c method url additionalHeaders
  = if Contains body session_expired_marker
    then Err login_timeout
    else Ok body.
Proof.
  intros Hanswers. unfold Client.do.
  match goal with
  | |- context [request_Request ?m ?u ?h] =>
      destruct (Hanswers m u h)
        as (encoding & reader & -> & [[-> ->]|(-> & gz & -> & ->)])
  end; done.
Qed.

(** X14.  A response body that holds the expired-session marker is a login
    timeout for [do] and for every gateway call, whether it is compressed
    or not and whatever it would decode to; without the marker [do]
    returns the body as it is. *)
Theorem login_timeout_sentinel (c : Client.client) (body : bytes) :
  answers_with body →
  (∀ method url additionalHeaders,
     Client.do c method url additionalHeaders
     = if Contains body session_expired_marker
       then Err login_timeout
       else Ok body)
  ∧ (Contains body session_expired_marker = true →
     (∀ courseID,
        Client.GStudy c courseID
        = Err (Errorf_w "failed to get glive syllabus: %w" login_timeout))
     ∧ (∀ courseID syllabusID,
        Client.GStudySyllabus c courseID syllabusID
        = Err (Errorf_w "failed to get glive syllabus: %w" login_timeout))
     ∧ (∀ courseID,
        Client.EpStudy c courseID
        = Err (Errorf_w "failed to get glive syllabus: %w" login_timeout))
     ∧ (∀ courseID syllabusID,
        Client.EpStudySyllabus c courseID syllabusID
        = Err (Errorf_w "failed to get glive syllabus: %w" login_timeout))
     ∧ (∀ code res channel,
        Client.VideoResource c code res channel
        = Err (Errorf_w "failed to get glive syllabus: %w" login_timeout))
     ∧ (∀ roomId token,
        Client.GLiveCheck c roomId token
        = Err (Errorf_w "failed to check glive vod: %w" login_timeout))
     ∧ (∀ id,
        Client.AuthorizeKey c id
        = Err (Errorf_w "failed to get glive syllabus: %w" login_timeout))).
Proof.
  intros Hanswers. split; [intros; by apply do_answers|].
  intros Hmarker.
  unfold Client.GStudy, Client.GStudySyllabus, Client.EpStudy,
    Client.EpStudySyllabus, Client.VideoResource, Client.GLiveCheck,
    Client.AuthorizeKey.
  split_and!; intros; by rewrite (do_answers _ _ _ _ body), Hmarker.
Qed.

End transport_facts.

(** A compressed body with the marker, which would decode to status 0. *)
Lemma login_timeout_sentinel_witness :
  @Client.GStudy (demo_gzip_transport (of_string "{'msg':'登录超时'}"))
    demo_client "17244"
  = Err (Errorf_w "failed to get glive syllabus: %w" login_timeout).
Proof.
  refine (proj1 (proj2 (@login_timeout_sentinel
            (demo_gzip_transport (of_string "{'msg':'登录超时'}"))
            demo_client _ _) _) "17244").
  - intros method url headers. eexists _, _. split; [reflexivity|].
    right. split; [reflexivity|]. eexists. split; reflexivity.
  - vm_compute. reflexivity.
Defined.

(** ** The device ID *)

Lemma hex_digit_is_hex (n : nat) : (n < 16)%nat → is_hex (hex_digit n).
Proof.
  intros Hn. unfold is_hex, hex_digit.
  do 16 (destruct n as [|n]; [vm_compute; set_solver|]). lia.
Qed.

Lemma Sprintf_x_bytes (b : bytes) :
  length (of_string (Sprintf_x b)) = (2 * length b)%nat
  ∧ Forall is_hex (of_string (Sprintf_x b)).
Proof.
  unfold Sprintf_x. rewrite of_to_string.
  induction b as [|c b [IHlen IHhex]]; [by split|].
  cbn [map concat app length]. split; [lia|].
  pose proof (nat_ascii_bounded c) as Hc.
  apply Forall_cons. split.
  { apply hex_digit_is_hex, Nat.Div0.div_lt_upper_bound. lia. }
  apply Forall_cons. split; [|done].
  apply hex_digit_is_hex, Nat.mod_upper_bound. lia.
Qed.

(** X15.  When the random source works, the device ID is a text of 66
    lower-case hexadecimal digits that begins with [32], the two digits
    of the character [2] written into the first byte; the fallback ID of a
    failing random source is the 33 characters of the source text. *)
Theorem generateDeviceID_shape (b : bytes) :
  length b = 33%nat →
  length (of_string (generateDeviceID (Ok b))) = 66%nat
  ∧ take 2 (of_string (generateDeviceID (Ok b))) = of_string "32"
  ∧ Forall is_hex (of_string (generateDeviceID (Ok b)))
  ∧ ∀ err, length (of_string (generateDeviceID (Err err))) = 33%nat.
Proof.
  intros Hlen. unfold generateDeviceID.
  destruct b as [|c b]; [done|].
  change (<[0%nat := "2"%char]> (c :: b)) with ("2"%char :: b).
  destruct (Sprintf_x_bytes ("2"%char :: b)) as [Hl Hhex].
  split; [rewrite Hl; cbn [length] in *; lia|]. split; [|done].
  unfold Sprintf_x. by rewrite of_to_string.
Qed.

Lemma generateDeviceID_shape_witness :
  take 2 (of_string (generateDeviceID (Ok (replicate 33 "000"%char))))
  = of_string "32".
Proof.
  apply (generateDeviceID_shape (replicate 33 "000"%char)). reflexivity.
Defined.

(** ** The command: nothing stops at the first failure *)

Section app_facts.
Context `{Command}.

Lemma download_items_spec (data : list Item) :
  App.download_items data
  = (map App.Downloaded (filter (λ item, item_Err item = None) data),
     omap item_error data).
Proof.
  induction data as [|item data IH]; [done|].
  cbn [App.download_items omap list_omap]. rewrite IH, filter_cons.
  destruct (item_Err item) as [err|] eqn:Herr.
  - rewrite decide_False by done.
    assert (item_error item = Some err) as ->
      by (unfold item_error; by rewrite Herr).
    done.
  - rewrite decide_True by done.
    assert (item_error item = downloader_Download item) as ->
      by (unfold item_error; by rewrite Herr).
    by destruct (downloader_Download item).
Qed.

Lemma omap_nil_Forall {A B} (f : A → option B) (l : list A) :
  omap f l = [] ↔ Forall (λ x, f x = None) l.
Proof.
  induction l as [|x l IH]; simpl; [by split; [constructor|]|].
  destruct (f x) eqn:Hx.
  - split; [done|]. intros [? _]%Forall_cons_1. congruence.
  - rewrite IH. split; [by constructor|by intros [_ ?]%Forall_cons_1].
Qed.

(** X16.  [downloadURL] starts the download of every item that carries no
    error, in the order of the list and whatever happened to the items
    before it; it returns the first error in that order, and no error
    exactly when no item carries one and every download succeeds. *)
Theorem downloadURL_attempts_all (flags : Flags) (videoURL : string)
    (data : list Item) :
  extractors_Extract videoURL = Ok data →
  jsonOutput flags = false →
  (App.downloadURL flags videoURL).1
  = map App.Downloaded (filter (λ item, item_Err item = None) data)
  ∧ (App.downloadURL flags videoURL).2 = head (omap item_error data)
  ∧ ((App.downloadURL flags videoURL).2 = None
     ↔ Forall (λ item, item_Err item = None
                       ∧ downloader_Download item = None) data).
Proof.
  intros Hdata Hjson. unfold App.downloadURL.
  rewrite Hdata, Hjson, download_items_spec. cbn [fst snd].
  split; [done|]. split; [done|].
  rewrite head_None, omap_nil_Forall. apply Forall_iff. intros item.
  unfold item_error. destruct (item_Err item); naive_solver.
Qed.

Lemma download_urls_spec (flags : Flags) (urls : list string) :
  App.download_urls flags urls
  = (concat (map (λ videoURL, (App.downloadURL flags videoURL).1) urls),
     bool_decide
       (Exists (λ videoURL, (App.downloadURL flags videoURL).2 ≠ None) urls)).
Proof.
  induction urls as [|videoURL urls IH]; cbn [App.download_urls].
  - done.
  - rewrite IH. destruct (App.downloadURL flags videoURL) as [events err] eqn:Hurl.
    cbn [map concat fst snd]. rewrite Hurl. cbn [fst]. f_equal.
    apply eq_true_iff_eq.
    rewrite orb_true_iff, !bool_decide_eq_true, Exists_cons.
    by rewrite Hurl.
Qed.

(** X17.  Once its inputs are read, [runDownload] sets the request options
    once, with the cookie or the trimmed content of the cookie file, and
    then runs [downloadURL] on every URL, those of the file before those
    of the command line, whatever fails on the way; it returns the error
    [some downloads failed] exactly when one of them returned an error. *)
Theorem runDownload_attempts_all (flags : Flags) (args fileItems : list string)
    (finalCookie : string) :
  inputs_ready flags fileItems finalCookie →
  fileItems ++ args ≠ [] →
  (App.runDownload flags args).1
  = App.SetOptions finalCookie
    :: concat (map (λ videoURL, (App.downloadURL flags videoURL).1)
                   (fileItems ++ args))
  ∧ ((App.runDownload flags args).2
     = if bool_decide
            (Exists (λ videoURL, (App.downloadURL flags videoURL).2 ≠ None)
                    (fileItems ++ args))
       then Some (errors_New "some downloads failed")
       else None).
Proof.
  intros [Hfile Hcookie] Hurls. unfold App.runDownload.
  assert ((if bool_decide (file flags ≠ "")
           then match os_Open (file flags) with
                | Err err => Err err
                | Ok f => Ok (utils_ParseInputFile f)
                end
           else Ok []) = Ok fileItems) as ->.
  { destruct (bool_decide (file flags ≠ "")); [|by subst].
    by destruct Hfile as (f & -> & ->). }
  assert ((length (fileItems ++ args) <? 1)%nat = false) as ->.
  { apply Nat.ltb_ge. destruct (fileItems ++ args); [done|simpl; lia]. }
  assert ((if bool_decide (cookie flags ≠ "") && os_Stat (cookie flags)
           then match os_ReadFile (cookie flags) with
                | Err err => Err err
                | Ok data => Ok (strings_TrimSpace (to_string data))
                end
           else Ok (cookie flags)) = Ok finalCookie) as ->.
  { destruct (_ && _); [|by subst].
    by destruct Hcookie as (data & -> & ->). }
  rewrite download_urls_spec. cbn [fst snd]. split; [done|].
  by case_bool_decide.
Qed.

(** X18.  [runDownload] touches nothing when it has no URL, when the URL file
    does not open, or when the cookie file does not read: it returns its
    error before the request options are set and before any download. *)
Theorem runDownload_early_errors (flags : Flags) (args : list string)
    (err : error) :
  (App.runDownload flags args).2 = Some err →
  err ≠ errors_New "some downloads failed" →
  (App.runDownload flags args).1 = [].
Proof.
  unfold App.runDownload. intros Herr Hne.
  repeat case_match; simplify_eq/=; done.
Qed.

End app_facts.

(** ** The further properties on the small catalogue *)

(** The video [abc]: its quality [SD] expands to two segments. *)
Lemma processVideoResource_usable_stream_witness :
  ∃ data,
    @processVideoResource demo_api canonical_range demo_library
      (demo_resource "video" "abc" "") "base" = Ok (Some data)
    ∧ Data.Streams data !! "abc_SD"
      = Some (@video_stream (demo_resource "video" "abc" "") "SD"
                (demo_quality 1 "abc") ["abc/0.ts"; "abc/1.ts"]).
Proof.
  eapply (@processVideoResource_usable_stream demo_api canonical_range
            demo_library (demo_resource "video" "abc" "") "base").
  - reflexivity.
  - apply lookup_singleton_eq.
  - split; [reflexivity|]. split; [discriminate|reflexivity].
Defined.


(** Course 0 has no gradation. *)
Lemma Extract_errors_witness :
  ∃ courseID,
    extractCourseID "https://gaodun.com/course/0" = Ok courseID
    ∧ @GStudy demo_api courseID = Ok [].
Proof.
  destruct (@Extract_errors demo_api canonical_range sequential demo_library
              "https://gaodun.com/course/0"
              (WithStack (errors_New "no G-Study course found")))
    as [Hurl|(courseID & Hid & [(e & _ & He)|[[HG _]|(e & _ & _ & He)]])];
    [vm_compute; reflexivity|discriminate| | |];
    [discriminate|by exists courseID|discriminate].
Defined.

(** The URL [u] has a broken item, an item whose download fails, and a
    healthy one: both downloads are started, the first error is the
    broken item's. *)
Lemma downloadURL_attempts_all_witness :
  (@App.downloadURL demo_command demo_flags "u").1
  = [@App.Downloaded demo_command "offline"; @App.Downloaded demo_command "u"]
  ∧ (@App.downloadURL demo_command demo_flags "u").2
    = Some (errors_New "broken item").
Proof.
  destruct (@downloadURL_attempts_all demo_command demo_flags "u"
              ["broken"; "offline"; "u"] eq_refl eq_refl)
    as (Hevents & Herr & _).
  split; [exact Hevents|exact Herr].
Defined.

(** The URL of the file comes before that of the command line; the URL
    [bad] fails and the run goes on. *)
Lemma runDownload_attempts_all_witness :
  (@App.runDownload demo_command demo_flags ["bad"; "u2"]).1
  = @App.SetOptions demo_command "k=v"
    :: concat (map (λ videoURL,
                      (@App.downloadURL demo_command demo_flags videoURL).1)
                   ["u1"; "bad"; "u2"])
  ∧ (@App.runDownload demo_command demo_flags ["bad"; "u2"]).2
    = Some (errors_New "some downloads failed").
Proof.
  destruct (@runDownload_attempts_all demo_command demo_flags ["bad"; "u2"]
              ["u1"] "k=v") as [Hevents Herr].
  - split; simpl; eauto.
  - discriminate.
  - split; [exact Hevents|]. rewrite Herr. reflexivity.
Defined.

(** A run without URL file and without argument. *)
Lemma runDownload_early_errors_witness :
  (@App.runDownload demo_command
     {| jsonOutput := false; file := ""; cookie := "" |} []).1 = [].
Proof.
  apply (@runDownload_early_errors demo_command _ []
           (errors_New "no URLs provided")).
  - reflexivity.
  - discriminate.
Defined.

(** A live resource whose record carries no video ID: its room checks to
    the code [abc]. *)
Lemma processResource_live_new_witness :
  ∃ data,
    @processResource demo_live_api canonical_range demo_library
      (demo_resource "live_new" ""
         "gaodunapp://gd/liveroom/v2/replays/detail?recordId=r1&did=d2&roomId=a-b&token=t0k")
      "base" = Ok (Some data)
    ∧ Data.URL data = "gaodun://video/abc"
    ∧ Data.Streams data !! "abc_SD"
      = Some (@video_stream
                (Resource.set_VideoID "abc"
                   (demo_resource "live_new" ""
                      "gaodunapp://gd/liveroom/v2/replays/detail?recordId=r1&did=d2&roomId=a-b&token=t0k"))
                "SD" (demo_quality 1 "abc") ["abc/0.ts"; "abc/1.ts"]).
Proof.
  eapply (@processResource_live_new demo_live_api canonical_range
            demo_library _ "base" (of_string "r1") (of_string "d2")
            (of_string "a-b") (of_string "t0k") [] "abc").
  - reflexivity.
  - reflexivity.
  - split; [discriminate|by repeat constructor].
  - split; [discriminate|by repeat constructor].
  - split; [discriminate|by repeat constructor].
  - split; [discriminate|by repeat constructor].
  - done.
  - reflexivity.
  - reflexivity.
  - apply lookup_singleton_eq.
  - split; [reflexivity|]. split; [discriminate|reflexivity].
Defined.

(** ** The cases of the package's tests *)

Example TestSanitizeFileName_normal :
  sanitizeFileName "Normal File Name" = "Normal File Name".
Proof. vm_compute. reflexivity. Qed.

Example TestSanitizeFileName_invalid :
  sanitizeFileName ("File/With\Invalid:Characters*?" +:+ String "034" "<>|")
  = "File-With-Invalid-Characters------".
Proof. vm_compute. reflexivity. Qed.

Example TestSanitizeFileName_spaces :
  sanitizeFileName "   File with spaces   " = "File with spaces".
Proof. vm_compute. reflexivity. Qed.

Example TestSanitizeFileName_long :
  sanitizeFileName
    "Very long file name that exceeds the maximum allowed length for filesystem compatibility and should be truncated to avoid issues"
  = "Very long file name that exceeds the maximum allowed length for filesystem compatibility and should".
Proof. vm_compute. reflexivity. Qed.

Example TestSanitizeFileName_empty : sanitizeFileName "" = "".
Proof. vm_compute. reflexivity. Qed.

Example TestExtractCourseID_course_id :
  extractCourseID "https://gaodun.com/course?course_id=17244" = Ok "17244".
Proof. vm_compute. reflexivity. Qed.

Example TestExtractCourseID_courseId :
  extractCourseID "https://gaodun.com/course?courseId=17244" = Ok "17244".
Proof. vm_compute. reflexivity. Qed.

Example TestExtractCourseID_path :
  extractCourseID "https://gaodun.com/course/17244" = Ok "17244".
Proof. vm_compute. reflexivity. Qed.

Example TestExtractCourseID_invalid :
  extractCourseID "https://gaodun.com/invalid"
  = Err (errors_New "course ID not found in URL").
Proof. vm_compute. reflexivity. Qed.

Example extractRoomIDAndToken_deep_link :
  extractRoomIDAndToken
    "gaodunapp://gd/liveroom/v2/replays/detail?recordId=r1&did=d2&roomId=a-b&token=t0k"
  = Ok ("a-b", "t0k").
Proof. vm_compute. reflexivity. Qed.

Example extractRoomIDAndToken_missing_token :
  extractRoomIDAndToken
    "gaodunapp://gd/liveroom/v2/replays/detail?recordId=r1&did=d2&roomId=a-b"
  = Err (errors_New "room ID and token not found in URL").
Proof. vm_compute. reflexivity. Qed.

(** A document resource: one stream of one part. *)
Example processNonVideoResource_pdf :
  ∃ data,
    @processResource demo_api canonical_range demo_library
      {| Resource.ID := 7; Resource.Title := "notes";
         Resource.Duration := None; Resource.Category := 0;
         Resource.Discriminator := "lecture_note"; Resource.Description := "";
         Resource.URI := ""; Resource.Extension := "";
         Resource.Mime := "application/pdf";
         Resource.Path := "https://cdn/notes.pdf"; Resource.VideoID := "";
         Resource.LiveStatus := ""; Resource.Filesize := "n/a";
         Resource.FileSizeHuman := ""; Resource.LiveUrlPlayBackApp := "" |}
      "base" = Ok (Some data)
    ∧ Data.Type_ data = DataTypeDocument
    ∧ Data.Title data = "base/notes"
    ∧ Data.Streams data
      = {[ "7" := {| Stream.ID := "7";
                    Stream.Parts :=
                      [ {| Part.URL := "https://cdn/notes.pdf";
                           Part.Size := 0; Part.Ext := "pdf" |} ];
                    Stream.Quality := "Unknown"; Stream.Size := 0;
                    Stream.Ext := "pdf"; Stream.NeedMux := false |} ]}.
Proof.
  eexists. split; [vm_compute; reflexivity|].
  split; [reflexivity|]. split; vm_compute; reflexivity.
Qed.
